(** * circuitsatisfier: the constraint-propagation CNF search of satisfier.py

    A shallow embedding of [gate_to_cnf_clauses], [ConstraintSet],
    [propagate_clause] and [satisfy_cnf] (satisfier.py) and of
    [generate_pigeonhole] (pigeonhole_generator.py), followed by the
    properties of the search engine.

    Python integers are unbounded, so variable ids are [Z].  A Python
    [dict] keyed by variable id is a [gmap Z _]: the code only ever reads a
    dict through [get], membership, or iteration over [sorted(items())], so
    insertion order is not observable. *)

From Stdlib Require Import ZArith List Lia.
From stdpp Require Import base decidable option list sorting gmap strings pretty.

Open Scope Z_scope.

(** ** Exceptions and outcomes *)

(** A call either returns a value or raises.  The two exceptions that the
    modelled functions can raise are [ValueError] (raised explicitly, with
    its message) and [IndexError] (indexing a list out of range). *)
Inductive exn : Type :=
  | ValueError (msg : string)
  | IndexError.

Inductive outcome (A : Type) : Type :=
  | Return (a : A)
  | Raise (e : exn).
Arguments Return {A} a.
Arguments Raise {A} e.

(** ** Gates (class [Gate]) *)

(** [Gate.__init__] stores the four fields as given, with a missing
    [inputs] replaced by the empty list. *)
#[warnings="-register-all"]
Inductive Gate : Type :=
  mkGate (gate_type : string) (inputs : list Gate)
         (label : option string) (index : option Z).

Definition gate_type (g : Gate) : string := let (t, _, _, _) := g in t.
Definition inputs (g : Gate) : list Gate := let (_, i, _, _) := g in i.
Definition index (g : Gate) : option Z := let (_, _, _, i) := g in i.

(** A clause as the engine sees it: the variables asserted positive and the
    variables asserted negative.  [gate_to_cnf_clauses] appends
    [literal.index] as it is, which is [None] for an INPUT gate built
    without an index, hence the [option]. *)
Definition raw_clause : Type := list (option Z) * list (option Z).

(** The loop over [clause.inputs], lines 70-78, threading the two lists. *)
Fixpoint cnf_literals (lits : list Gate)
    (positive_literals negative_literals : list (option Z))
    : outcome raw_clause :=
  match lits with
  | [] => Return (positive_literals, negative_literals)
  | literal :: rest =>
      if decide (gate_type literal = "INPUT"%string) then
        cnf_literals rest (positive_literals ++ [index literal]) negative_literals
      else if decide (gate_type literal = "NOT"%string) then
        match inputs literal with
        | [] => Raise IndexError
        | operand :: _ =>
            if decide (gate_type operand ≠ "INPUT"%string) then
              Raise (ValueError
                "Negation can only be applied to input variables in CNF")
            else
              cnf_literals rest positive_literals
                           (negative_literals ++ [index operand])
        end
      else Raise (ValueError "Invalid literal type in CNF clause")
  end.

(** The loop over [circuit.inputs], lines 63-80. *)
Fixpoint cnf_clauses (cls : list Gate) (clauses : list raw_clause)
    : outcome (list raw_clause) :=
  match cls with
  | [] => Return clauses
  | clause :: rest =>
      if decide (gate_type clause ≠ "OR"%string) then
        Raise (ValueError "Second level gates must be OR for CNF form")
      else
        match cnf_literals (inputs clause) [] [] with
        | Raise e => Raise e
        | Return c => cnf_clauses rest (clauses ++ [c])
        end
  end.

Definition gate_to_cnf_clauses (circuit : Gate) : outcome (list raw_clause) :=
  if decide (gate_type circuit ≠ "AND"%string) then
    Raise (ValueError "Top level gate must be AND for CNF form")
  else cnf_clauses (inputs circuit) [].

(** ** Variable states and constraint sets *)

Inductive VarState : Type := UNKNOWN | MUST_TRUE | MUST_FALSE | CONFLICT.

#[global] Instance VarState_eq_dec : EqDecision VarState.
Proof. solve_decision. Defined.

Record ConstraintSet : Type := mkConstraintSet { var_states : gmap Z VarState }.

(** [ConstraintSet()] *)
Definition new_ConstraintSet : ConstraintSet := mkConstraintSet ∅.

(** [copy]: a fresh object holding a copy of the dict.  Values are
    immutable here, so the copy is the same value; what matters is that
    every mutation below acts on the copy and leaves the original alone. *)
Definition copy (self : ConstraintSet) : ConstraintSet :=
  mkConstraintSet (var_states self).

Definition get_state (self : ConstraintSet) (var : Z) : VarState :=
  default UNKNOWN (var_states self !! var).

(** [set_state] mutates [self] and returns a flag: the result pairs the
    flag with the object after the call. *)
Definition set_state (self : ConstraintSet) (var : Z) (state : VarState)
    : bool * ConstraintSet :=
  let current := get_state self var in
  if decide (current = state ∨ current = UNKNOWN) then
    (true, mkConstraintSet (<[var := state]> (var_states self)))
  else
    (false, mkConstraintSet (<[var := CONFLICT]> (var_states self))).

(** [sorted(self.var_states.items())]: keys are distinct, so the order of
    the pairs is the order of their keys. *)
Definition items_le (a b : Z * VarState) : Prop := a.1 ≤ b.1.

#[global] Instance items_le_dec : RelDecision items_le.
Proof. intros a b. unfold items_le. apply _. Defined.

Definition sorted_items (m : gmap Z VarState) : list (Z * VarState) :=
  merge_sort items_le (map_to_list m).

(** The loop of [to_assignment], lines 117-125; [None] is the early
    [return None]. *)
Fixpoint to_assignment_loop (items : list (Z * VarState))
    (result : gmap Z bool) : option (gmap Z bool) :=
  match items with
  | [] => Some result
  | (var, state) :: rest =>
      match state with
      | CONFLICT => None
      | MUST_TRUE => to_assignment_loop rest (<[var := true]> result)
      | MUST_FALSE => to_assignment_loop rest (<[var := false]> result)
      | UNKNOWN => to_assignment_loop rest (<[var := true]> result)
      end
  end.

Definition to_assignment (self : ConstraintSet) : option (gmap Z bool) :=
  to_assignment_loop (sorted_items (var_states self)) ∅.

(** ** The clause propagator *)

Definition clause : Type := list Z * list Z.

(** One iteration of the loops at lines 148-152 and 155-159.  The two
    loops differ only in the state that rules a literal out ([excluded])
    and the state the literal is forced to ([forced]). *)
Definition try_literal (current_state : ConstraintSet)
    (excluded forced : VarState)
    (result : list ConstraintSet) (var : Z) : list ConstraintSet :=
  if decide (get_state current_state var ≠ excluded) then
    let new_state := copy current_state in
    let '(ok, new_state) := set_state new_state var forced in
    if ok then result ++ [new_state] else result
  else result.

(** The two early-return loops at lines 137-142. *)
Definition some_state (current_state : ConstraintSet) (wanted : VarState)
    (lits : list Z) : bool :=
  existsb (λ var, bool_decide (get_state current_state var = wanted)) lits.

Definition propagate_clause (cl : clause) (constraints : ConstraintSet)
    : list ConstraintSet :=
  let '(pos_lits, neg_lits) := cl in
  let current_state := copy constraints in
  if some_state current_state MUST_TRUE pos_lits then [current_state]
  else if some_state current_state MUST_FALSE neg_lits then [current_state]
  else
    let result := [] in
    let result :=
      foldl (try_literal current_state MUST_FALSE MUST_TRUE) result pos_lits in
    let result :=
      foldl (try_literal current_state MUST_TRUE MUST_FALSE) result neg_lits in
    result.

(** ** The frontier search driver *)

(** The inner loop, lines 176-182: [new_constraints.extend(new_sets)] for
    every constraint set of the frontier. *)
Definition extend_frontier (cl : clause)
    (possible_constraints : list ConstraintSet) : list ConstraintSet :=
  foldl (λ new_constraints constraints,
           new_constraints ++ propagate_clause cl constraints)
        [] possible_constraints.

(** The outer loop, lines 175-199.  Beside the outcome, the run records
    the value of [possible_constraints] after each clause it processed (the
    frontier whose size and first member line 187-192 print). *)
Fixpoint process_clauses (clauses : list clause)
    (possible_constraints : list ConstraintSet)
    : list (list ConstraintSet) * outcome (option (gmap Z bool)) :=
  match clauses with
  | [] =>
      ([], match possible_constraints with
           | [] => Raise IndexError
           | first :: _ => Return (to_assignment first)
           end)
  | cl :: rest =>
      let possible_constraints := extend_frontier cl possible_constraints in
      match possible_constraints with
      | [] => ([possible_constraints], Return None)
      | _ :: _ =>
          let '(trace, res) := process_clauses rest possible_constraints in
          (possible_constraints :: trace, res)
      end
  end.

Definition satisfy_cnf_run (clauses : list clause)
    : list (list ConstraintSet) * outcome (option (gmap Z bool)) :=
  match clauses with
  | [] => ([], Return (Some ∅))
  | _ :: _ => process_clauses clauses [new_ConstraintSet]
  end.

Definition satisfy_cnf (clauses : list clause)
    : outcome (option (gmap Z bool)) :=
  (satisfy_cnf_run clauses).2.

(** The frontiers a run went through, one per processed clause. *)
Definition frontiers (clauses : list clause) : list (list ConstraintSet) :=
  (satisfy_cnf_run clauses).1.

(** ** The caller's completion step (generate_and_solve, lines 262-266) *)

Definition add_missing (all_variables : list Z) (result : gmap Z bool)
    : gmap Z bool :=
  foldl (λ result var,
           if decide (var ∉ dom result) then <[var := true]> result
           else result)
        result all_variables.

(** ** The pigeonhole generator *)

(** [range(a, b)] *)
Definition range (a b : Z) : list Z := seqZ a (b - a).

Definition generate_pigeonhole (pigeons holes : Z) : list clause :=
  let clauses := [] in
  let clauses :=
    foldl (λ clauses p,
             let variables :=
               map (λ h, (p - 1) * holes + h) (range 1 (holes + 1)) in
             clauses ++ [(variables, [])])
          clauses (range 1 (pigeons + 1)) in
  let clauses :=
    foldl (λ clauses h,
      foldl (λ clauses p1,
        foldl (λ clauses p2,
                 let var1 := (p1 - 1) * holes + h in
                 let var2 := (p2 - 1) * holes + h in
                 clauses ++ [([], [var1; var2])])
              clauses (range (p1 + 1) (pigeons + 1)))
        clauses (range 1 pigeons))
      clauses (range 1 (holes + 1)) in
  clauses.

(** ** Predicates used in the statements *)

(** No variable is recorded as CONFLICT. *)
Definition conflict_free (c : ConstraintSet) : Prop :=
  ∀ var, var_states c !! var ≠ Some CONFLICT.

(** The constraint set already forces one literal of the clause. *)
Definition clause_forced (cl : clause) (c : ConstraintSet) : Prop :=
  (∃ var, var ∈ cl.1 ∧ get_state c var = MUST_TRUE) ∨
  (∃ var, var ∈ cl.2 ∧ get_state c var = MUST_FALSE).

(** The assignment makes one literal of the clause true. *)
Definition clause_satisfied (m : gmap Z bool) (cl : clause) : Prop :=
  (∃ var, var ∈ cl.1 ∧ m !! var = Some true) ∨
  (∃ var, var ∈ cl.2 ∧ m !! var = Some false).

(** The variables a clause mentions. *)
Definition clause_vars (cl : clause) : list Z := cl.1 ++ cl.2.

(** The boolean [to_assignment] gives to a state other than CONFLICT. *)
Definition state_value (s : VarState) : bool :=
  match s with
  | MUST_FALSE => false
  | _ => true
  end.

(** What one iteration of the loop of [to_assignment] records for a state
    other than CONFLICT. *)
Definition record_item (r : gmap Z bool) (p : Z * VarState) : gmap Z bool :=
  <[p.1 := state_value p.2]> r.

(** What a literal contributes to the result of a try-loop. *)
Definition candidate (c : ConstraintSet) (excluded forced : VarState)
    (var : Z) (d : ConstraintSet) : Prop :=
  get_state c var ≠ excluded ∧ set_state (copy c) var forced = (true, d).

(** The frontier after a list of clauses, as the fold of the transition. *)
Definition frontier_after (F : list ConstraintSet) (cs : list clause)
    : list ConstraintSet :=
  foldl (λ F cl, extend_frontier cl F) F cs.

(** The variable occurs in some clause of the list. *)
Definition mentioned (cs : list clause) (var : Z) : Prop :=
  ∃ cl, cl ∈ cs ∧ var ∈ clause_vars cl.

(** A total valuation agrees with what a constraint set forces. *)
Definition consistent (c : ConstraintSet) (σ : Z → bool) : Prop :=
  ∀ var, (var_states c !! var = Some MUST_TRUE → σ var = true) ∧
         (var_states c !! var = Some MUST_FALSE → σ var = false).

(** A total valuation makes one literal of the clause true. *)
Definition models (σ : Z → bool) (cl : clause) : Prop :=
  (∃ var, var ∈ cl.1 ∧ σ var = true) ∨ (∃ var, var ∈ cl.2 ∧ σ var = false).

(** A literal of the shape the extraction accepts: an INPUT gate, or a NOT
    gate whose operand (its first input) is an INPUT gate. *)
Definition literal_ok (g : Gate) : Prop :=
  gate_type g = "INPUT"%string ∨
  (gate_type g = "NOT"%string ∧
   ∃ operand others, inputs g = operand :: others ∧
                     gate_type operand = "INPUT"%string).

(** The shape violations the extraction has to reject: the top gate is not
    an AND, a child of it is not an OR, or a child of an OR child is not an
    accepted literal. *)
Definition malformed (circuit : Gate) : Prop :=
  gate_type circuit ≠ "AND"%string ∨
  ∃ cl, cl ∈ inputs circuit ∧
        (gate_type cl ≠ "OR"%string ∨
         ∃ lit, lit ∈ inputs cl ∧ ¬ literal_ok lit).

(** The variables of the INPUT children, and of the operands of the other
    children, in order. *)
Definition positive_of (lits : list Gate) : list (option Z) :=
  flat_map (λ l, if decide (gate_type l = "INPUT"%string)
                 then [index l] else []) lits.

Definition negative_of (lits : list Gate) : list (option Z) :=
  flat_map (λ l, if decide (gate_type l = "INPUT"%string) then []
                 else match inputs l with
                      | operand :: _ => [index operand]
                      | [] => []
                      end) lits.

Definition clause_of (or_gate : Gate) : raw_clause :=
  (positive_of (inputs or_gate), negative_of (inputs or_gate)).

(** A NOT gate built without an operand. *)
Definition operandless_not (g : Gate) : Prop :=
  gate_type g = "NOT"%string ∧ inputs g = [].

(** An AND of one OR whose only literal is a NOT gate built without an
    operand: [Gate('AND', [Gate('OR', [Gate('NOT')])])]. *)
Definition operandless_not_circuit : Gate :=
  mkGate "AND" [mkGate "OR" [mkGate "NOT" [] None None] None None] None None.

(** The clause saying pigeon [p] sits in some hole. *)
Definition pigeon_clause (holes p : Z) : clause :=
  (map (λ h, (p - 1) * holes + h) (range 1 (holes + 1)), []).

(** The clause saying pigeons [p1] and [p2] do not share hole [h]. *)
Definition hole_clause (holes h p1 p2 : Z) : clause :=
  ([], [(p1 - 1) * holes + h; (p2 - 1) * holes + h]).

(** The valuation that puts pigeon [p] in hole [p]. *)
Definition diagonal (pigeons holes : Z) (var : Z) : bool :=
  bool_decide
    (var ∈ map (λ p, (p - 1) * holes + p) (range 1 (pigeons + 1))).

(** ** Evaluation of gates ([Gate.evaluate]) *)

(** The exceptions of the functions below: a missing dict key, a division
    by zero, an ordering comparison between None and an integer, and the
    two of the extraction. *)
Inductive error : Type :=
  | KeyError (key : option Z)
  | ZeroDivisionError
  | TypeError
  | Exn (e : exn).

Inductive result (A : Type) : Type :=
  | Returns (a : A)
  | Raises (e : error).
Arguments Returns {A} a.
Arguments Raises {A} e.

(** [all(f(x) for x in l)] and [any(f(x) for x in l)]: the generator is
    consumed from the left and only as far as needed, so an exception in a
    later element is not raised once the answer is known. *)
Section quantifiers.

Context {A : Type} (f : A → result bool).

Fixpoint all_of (l : list A) : result bool :=
  match l with
  | [] => Returns true
  | x :: rest =>
      match f x with
      | Returns true => all_of rest
      | Returns false => Returns false
      | Raises e => Raises e
      end
  end.

Fixpoint any_of (l : list A) : result bool :=
  match l with
  | [] => Returns false
  | x :: rest =>
      match f x with
      | Returns true => Returns true
      | Returns false => any_of rest
      | Raises e => Raises e
      end
  end.

End quantifiers.

(** [Gate.evaluate], lines 22-31.  The dict is indexed by [self.index] as
    it is, so its keys are the values an index can take. *)
Fixpoint evaluate (self : Gate) (input_values : gmap (option Z) bool)
    {struct self} : result bool :=
  if decide (gate_type self = "INPUT"%string) then
    match input_values !! index self with
    | Some b => Returns b
    | None => Raises (KeyError (index self))
    end
  else if decide (gate_type self = "NOT"%string) then
    match inputs self with
    | [] => Raises (Exn IndexError)
    | operand :: _ =>
        match evaluate operand input_values with
        | Returns b => Returns (negb b)
        | Raises e => Raises e
        end
    end
  else if decide (gate_type self = "AND"%string) then
    all_of (λ inp, evaluate inp input_values) (inputs self)
  else if decide (gate_type self = "OR"%string) then
    any_of (λ inp, evaluate inp input_values) (inputs self)
  else Raises (Exn (ValueError ("Unknown gate type: " +:+ gate_type self))).

(** ** Variable collection ([collect_circuit_variables], lines 231-242) *)

(** [gather_vars] adds to the shared set [variables]; the set is threaded
    through the recursion. *)
Fixpoint gather_vars (gate : Gate) (variables : gset (option Z))
    {struct gate} : gset (option Z) :=
  let variables :=
    if decide (gate_type gate = "INPUT"%string)
    then variables ∪ {[index gate]} else variables in
  foldl (λ variables inp, gather_vars inp variables) variables (inputs gate).

Definition collect_circuit_variables (circuit : Gate) : gset (option Z) :=
  gather_vars circuit ∅.

(** [d] is [g] or a gate below it. *)
Inductive subgate (d : Gate) : Gate → Prop :=
  | subgate_here : subgate d d
  | subgate_below g c : c ∈ inputs g → subgate d c → subgate d g.

(** Induction on gates with the hypothesis on every input. *)
Fixpoint Gate_nested_ind (P : Gate → Prop)
    (step : ∀ g, Forall P (inputs g) → P g) (g : Gate) {struct g} : P g :=
  step g
    (match g as g0 return Forall P (inputs g0) with
     | mkGate _ ins _ _ =>
         (fix go (l : list Gate) : Forall P l :=
            match l with
            | [] => List.Forall_nil P
            | x :: r => List.Forall_cons P x r (Gate_nested_ind P step x) (go r)
            end) ins
     end).

(** A clause over integer variables as the extraction writes it. *)
Definition raw_of (cl : clause) : raw_clause := (Some <$> cl.1, Some <$> cl.2).

(** The dict makes one literal of the extracted clause true. *)
Definition raw_clause_satisfied (input_values : gmap (option Z) bool)
    (cl : raw_clause) : Prop :=
  (∃ var, var ∈ cl.1 ∧ input_values !! var = Some true) ∨
  (∃ var, var ∈ cl.2 ∧ input_values !! var = Some false).

(** ** Display of pigeonhole clauses (pigeonhole_generator.py, lines 32-49) *)

(** [var_to_ph]: [//] and [%] are floor division and its remainder, which
    is what [/] and [mod] are on [Z]; by zero they raise. *)
Definition var_to_ph (holes var : Z) : result string :=
  let var := var - 1 in
  if decide (holes = 0) then Raises ZeroDivisionError
  else
    let p := var / holes + 1 in
    let h := var `mod` holes + 1 in
    Returns ("x₍" +:+ pretty p +:+ "," +:+ pretty h +:+ "₎").

(** The two loops that fill [terms], lines 44-47. *)
Fixpoint ph_terms (holes : Z) (prefix : string) (vars : list Z)
    (terms : list string) : result (list string) :=
  match vars with
  | [] => Returns terms
  | var :: rest =>
      match var_to_ph holes var with
      | Returns s => ph_terms holes prefix rest (terms ++ [prefix +:+ s])
      | Raises e => Raises e
      end
  end.

Definition format_pigeonhole_clause (cl : clause) (holes : Z)
    : result string :=
  let '(pos_lits, neg_lits) := cl in
  match ph_terms holes "" pos_lits [] with
  | Raises e => Raises e
  | Returns terms =>
      match ph_terms holes "¬" neg_lits terms with
      | Raises e => Raises e
      | Returns terms => Returns ("(" +:+ String.concat " ∨ " terms +:+ ")")
      end
  end.

(** ** Truth tables (truthtables.py, lines 79-106) *)

(** [get_input_variables]: its [gather_inputs] is the [gather_vars] of
    satisfier.py under another name. *)
Definition get_input_variables (circuit : Gate) : gset (option Z) :=
  gather_vars circuit ∅.

(** The order [sorted] puts indices in.  Integers are ordered; comparing
    None with an integer raises TypeError, which happens as soon as None
    stands among two or more elements to sort. *)
Definition index_le (a b : option Z) : Prop :=
  match a, b with
  | Some x, Some y => x ≤ y
  | _, _ => True
  end.

#[global] Instance index_le_dec : RelDecision index_le.
Proof. intros [x|] [y|]; simpl; apply _. Defined.

Definition sorted_indices (s : gset (option Z)) : result (list (option Z)) :=
  if decide (None ∈ s ∧ (2 ≤ size s)%nat) then Raises TypeError
  else Returns (merge_sort index_le (elements s)).

(** [product([False, True], repeat=n)]: the tuples in lexicographic order,
    the last position changing fastest. *)
Fixpoint product_bools (n : nat) : list (list bool) :=
  match n with
  | O => [[]]
  | S n => flat_map (λ b, map (cons b) (product_bools n)) [false; true]
  end.

(** [dict(zip(keys, values))]: the pairs are inserted from left to right. *)
Definition dict_zip (keys : list (option Z)) (values : list bool)
    : gmap (option Z) bool :=
  foldl (λ d p, <[p.1 := p.2]> d) ∅ (zip keys values).

(** A row [{'inputs': ..., 'output': ...}]. *)
Record row : Type := mkRow { row_inputs : gmap (option Z) bool;
                             row_output : bool }.

(** The loop of [generate_truth_table], lines 97-104. *)
Fixpoint truth_table_rows (circuit : Gate) (input_vars : list (option Z))
    (tuples : list (list bool)) (rows : list row) : result (list row) :=
  match tuples with
  | [] => Returns rows
  | values :: rest =>
      let input_values := dict_zip input_vars values in
      match evaluate circuit input_values with
      | Raises e => Raises e
      | Returns res =>
          truth_table_rows circuit input_vars rest
            (rows ++ [mkRow input_values res])
      end
  end.

Definition generate_truth_table (circuit : Gate) : result (list row) :=
  match sorted_indices (get_input_variables circuit) with
  | Raises e => Raises e
  | Returns input_vars =>
      truth_table_rows circuit input_vars
        (product_bools (length input_vars)) []
  end.

(** The circuit ¬x1. *)
Definition negated_input_circuit : Gate :=
  mkGate "NOT" [mkGate "INPUT" [] None (Some 1)] None None.

(** Its truth table. *)
Definition negated_input_table : list row :=
  [mkRow {[Some 1 := false]} true; mkRow {[Some 1 := true]} false].

(** The circuit (x1) ∧ (¬x1), and its truth table. *)
Definition contradiction_circuit : Gate :=
  mkGate "AND"
    [mkGate "OR" [mkGate "INPUT" [] None (Some 1)] None None;
     mkGate "OR" [mkGate "NOT" [mkGate "INPUT" [] None (Some 1)] None None]
            None None] None None.

Definition contradiction_table : list row :=
  [mkRow {[Some 1 := false]} false; mkRow {[Some 1 := true]} false].

(** ** Random circuits ([generate_circuit], satisfier.py lines 33-55) *)

(** What the random number generator decides for one clause: the
    positions in the pool that [random.sample] picks, and for each literal
    whether [random.random() < 0.5].  The generator is an argument of the
    model: the loop consumes one [draw] per clause, so the number of clauses
    is the number of draws. *)
Record draw : Type := mkDraw { positions : list nat; negate : list bool }.

(** [Gate('INPUT', label=f'x{i+1}', index=i+1)] *)
Definition input_gate (i : Z) : Gate :=
  mkGate "INPUT" [] (Some ("x" +:+ pretty (i + 1))) (Some (i + 1)).

Definition available_inputs (num_inputs : Z) : list Gate :=
  map input_gate (range 0 num_inputs).

(** [random.sample(population, 3)]: it raises when the population has
    fewer than 3 elements, and otherwise returns the elements at the
    picked positions. *)
Definition sample (population : list Gate) (d : draw) : result (list Gate) :=
  if decide (length population < 3)%nat then
    Raises (Exn (ValueError "Sample larger than population or is negative"))
  else Returns (omap (λ i, population !! i) (positions d)).

Definition negated_literals (literals : list Gate) (d : draw) : list Gate :=
  zip_with (λ lit (coin : bool),
              if coin then mkGate "NOT" [lit] None None else lit)
           literals (negate d).

Fixpoint generate_clauses (population : list Gate) (draws : list draw)
    (clauses : list Gate) : result (list Gate) :=
  match draws with
  | [] => Returns clauses
  | d :: rest =>
      match sample population d with
      | Raises e => Raises e
      | Returns literals =>
          generate_clauses population rest
            (clauses ++ [mkGate "OR" (negated_literals literals d) None None])
      end
  end.

Definition generate_circuit (num_inputs : Z) (draws : list draw)
    : result Gate :=
  match generate_clauses (available_inputs num_inputs) draws [] with
  | Raises e => Raises e
  | Returns clauses => Returns (mkGate "AND" clauses None None)
  end.

(** What [random.sample] and the comprehension guarantee of a draw: three
    distinct positions of the pool, and three coins. *)
Definition valid_draw (num_inputs : Z) (d : draw) : Prop :=
  length (positions d) = 3%nat ∧ NoDup (positions d) ∧
  (∀ i, i ∈ positions d → Z.of_nat i < num_inputs) ∧
  length (negate d) = 3%nat.

(** The clause a draw stands for: variable [i+1] for position [i], negated
    where the coin says so. *)
Definition drawn_clause (d : draw) : clause :=
  let lits := zip (map (λ i, Z.of_nat i + 1) (positions d)) (negate d) in
  (omap (λ p : Z * bool, if p.2 then None else Some p.1) lits,
   omap (λ p : Z * bool, if p.2 then Some p.1 else None) lits).

(** The OR gate a draw yields. *)
Definition drawn_gate (num_inputs : Z) (d : draw) : Gate :=
  mkGate "OR"
    (negated_literals
       (omap (λ i, available_inputs num_inputs !! i) (positions d)) d)
    None None.

(** The circuit (¬x3 ∨ x1 ∨ x2), as [generate_circuit] builds it. *)
Definition drawn_circuit : Gate :=
  mkGate "AND"
    [mkGate "OR" [mkGate "NOT" [input_gate 2] None None;
                  input_gate 0; input_gate 1] None None] None None.

(** ** Further predicates and examples *)

(** An INPUT gate at or below [g] carries the index [key]. *)
Definition input_below (g : Gate) (key : option Z) : Prop :=
  ∃ d, subgate d g ∧ gate_type d = "INPUT"%string ∧ index d = key.

(** The circuit (x1 ∨ x2). *)
Definition one_clause_circuit : Gate :=
  mkGate "AND"
    [mkGate "OR" [mkGate "INPUT" [] None (Some 1);
                  mkGate "INPUT" [] None (Some 2)] None None] None None.

(** The valuation that reads a returned mapping, True where it has no
    entry. *)
Definition valuation_of (m : gmap Z bool) (var : Z) : bool :=
  default true (m !! var).

(** Every state the constraint set stores is a forced one, backed by a
    literal of that polarity in the clauses seen. *)
Definition backed (seen : list clause) (c : ConstraintSet) : Prop :=
  ∀ var s, var_states c !! var = Some s →
    (s = MUST_TRUE ∧ ∃ cl, cl ∈ seen ∧ var ∈ cl.1) ∨
    (s = MUST_FALSE ∧ ∃ cl, cl ∈ seen ∧ var ∈ cl.2).

(** The name [var_to_ph] builds for pigeon [p] and hole [h]. *)
Definition ph_name (p h : Z) : string :=
  "x₍" +:+ pretty p +:+ "," +:+ pretty h +:+ "₎".

(** The clauses of one hole, as the two inner loops build them. *)
Definition one_hole_clauses (pigeons holes h : Z) : list clause :=
  concat (map (λ p1,
    concat (map (λ p2, [hole_clause holes h p1 p2])
                (range (p1 + 1) (pigeons + 1))))
    (range 1 pigeons)).

(** What links a tuple of values to the row made from it. *)
Definition row_of (circuit : Gate) (keys : list (option Z))
    (values : list bool) (r : row) : Prop :=
  row_inputs r = dict_zip keys values ∧
  evaluate circuit (dict_zip keys values) = Returns (row_output r).

(** * Properties *)

(** ** [ConstraintSet] *)

Lemma copy_eq c : copy c = c.
Proof. by destruct c. Qed.

Lemma get_state_MUST_TRUE c var :
  get_state c var = MUST_TRUE ↔ var_states c !! var = Some MUST_TRUE.
Proof.
  unfold get_state. destruct (var_states c !! var) as [s|]; simpl; split;
    congruence.
Qed.

Lemma get_state_MUST_FALSE c var :
  get_state c var = MUST_FALSE ↔ var_states c !! var = Some MUST_FALSE.
Proof.
  unfold get_state. destruct (var_states c !! var) as [s|]; simpl; split;
    congruence.
Qed.

Lemma conflict_free_new : conflict_free new_ConstraintSet.
Proof. intros var. simpl. by rewrite lookup_empty. Qed.

(** A successful [set_state] is an insertion of the requested state over a
    variable that was UNKNOWN or already in that state. *)
Lemma initial_frontier_conflict_free :
  Forall conflict_free [new_ConstraintSet].
Proof. constructor; [apply conflict_free_new|constructor]. Qed.

Lemma set_state_true c var state d :
  set_state c var state = (true, d) →
  (get_state c var = state ∨ get_state c var = UNKNOWN) ∧
  var_states d = <[var := state]> (var_states c).
Proof.
  unfold set_state. case_decide; intros [= <-]; auto.
Qed.

Lemma to_assignment_loop_Some items acc :
  (∀ p, p ∈ items → p.2 ≠ CONFLICT) →
  to_assignment_loop items acc = Some (foldl record_item acc items).
Proof.
  revert acc. induction items as [|[var state] rest IH]; intros acc Hok;
    [done|].
  assert (state ≠ CONFLICT) by (apply (Hok (var, state)); left).
  assert (∀ p, p ∈ rest → p.2 ≠ CONFLICT) by (intros; apply Hok; by right).
  simpl. destruct state; try done; by rewrite IH.
Qed.

Lemma foldl_record_item_lookup items acc var :
  NoDup items.*1 →
  foldl record_item acc items !! var =
    match (list_to_map items : gmap Z VarState) !! var with
    | Some s => Some (state_value s)
    | None => acc !! var
    end.
Proof.
  revert acc. induction items as [|[k s] rest IH]; intros acc Hnd; [done|].
  apply NoDup_cons in Hnd as [Hk Hnd]. simpl.
  rewrite IH by done. unfold record_item; simpl.
  destruct (decide (k = var)) as [->|Hne].
  - rewrite lookup_insert_eq.
    by rewrite (not_elem_of_list_to_map_1 rest var Hk), lookup_insert_eq.
  - by rewrite !(lookup_insert_ne _ k var) by done.
Qed.

Lemma list_to_map_sorted_items (m : gmap Z VarState) :
  list_to_map (sorted_items m) = m.
Proof.
  unfold sorted_items.
  rewrite <- (list_to_map_to_list m) at 2.
  apply list_to_map_proper.
  - rewrite merge_sort_Permutation. apply NoDup_fst_map_to_list.
  - apply merge_sort_Permutation.
Qed.

(** On a conflict-free constraint set [to_assignment] returns the
    pointwise image of the states. *)
Lemma to_assignment_conflict_free c :
  conflict_free c →
  to_assignment c = Some (state_value <$> var_states c).
Proof.
  intros Hcf. unfold to_assignment.
  rewrite to_assignment_loop_Some.
  - f_equal. apply map_eq. intros var.
    rewrite foldl_record_item_lookup.
    + rewrite list_to_map_sorted_items, lookup_fmap, lookup_empty.
      by destruct (var_states c !! var).
    + unfold sorted_items. rewrite merge_sort_Permutation.
      apply NoDup_fst_map_to_list.
  - intros [var s] Hin Hs. simpl in Hs. subst s.
    unfold sorted_items in Hin. rewrite merge_sort_Permutation in Hin.
    apply elem_of_map_to_list in Hin. by apply (Hcf var).
Qed.

(** ** [propagate_clause] *)

Lemma some_state_true c wanted lits :
  some_state c wanted lits = true ↔
  ∃ var, var ∈ lits ∧ get_state c var = wanted.
Proof.
  unfold some_state. rewrite existsb_exists. split.
  - intros (var & Hin & Hd). exists var.
    split; [by apply list_elem_of_In | by apply bool_decide_eq_true in Hd].
  - intros (var & Hin & Hd). exists var.
    split; [by apply list_elem_of_In | by apply bool_decide_eq_true].
Qed.

Lemma elem_of_try_loop c excluded forced lits acc d :
  d ∈ foldl (try_literal c excluded forced) acc lits ↔
  d ∈ acc ∨ ∃ var, var ∈ lits ∧ candidate c excluded forced var d.
Proof.
  revert acc. induction lits as [|var rest IH]; intros acc; simpl.
  - split; [auto|]. intros [?|(var & Hin & _)]; [done|].
    by apply elem_of_nil in Hin.
  - rewrite IH. unfold try_literal at 1, candidate.
    destruct (decide (get_state c var ≠ excluded)) as [Hne|Heq].
    + destruct (set_state (copy c) var forced) as [[] d'] eqn:Hset.
      * rewrite elem_of_app, list_elem_of_singleton. split.
        -- intros [[?| ->]|(v & Hin & Hc)]; [by left| |].
           ++ right. exists var. split; [left|done].
           ++ right. exists v. split; [by right|done].
        -- intros [?|(v & Hin & Hv & Hc)]; [by left; left|].
           apply elem_of_cons in Hin as [->|Hin].
           ++ left; right. congruence.
           ++ right. exists v. done.
      * split.
        -- intros [?|(v & Hin & Hc)]; [by left|].
           right. exists v. split; [by right|done].
        -- intros [?|(v & Hin & Hv & Hc)]; [by left|].
           apply elem_of_cons in Hin as [->|Hin]; [congruence|].
           right. exists v. done.
    + split.
      * intros [?|(v & Hin & Hc)]; [by left|].
        right. exists v. split; [by right|done].
      * intros [?|(v & Hin & Hv & Hc)]; [by left|].
        apply elem_of_cons in Hin as [->|Hin]; [done|].
        right. exists v. done.
Qed.

Lemma clause_forced_dec cl c : {clause_forced cl c} + {¬ clause_forced cl c}.
Proof.
  destruct (some_state c MUST_TRUE cl.1) eqn:Hp.
  { left. left. by apply some_state_true. }
  destruct (some_state c MUST_FALSE cl.2) eqn:Hn.
  { left. right. by apply some_state_true. }
  right. intros [H|H]; apply some_state_true in H; congruence.
Qed.

Lemma propagate_clause_forced cl c :
  clause_forced cl c → propagate_clause cl c = [copy c].
Proof.
  destruct cl as [pos_lits neg_lits]. intros Hf. unfold propagate_clause.
  rewrite !copy_eq.
  destruct (some_state c MUST_TRUE pos_lits) eqn:Hp; [done|].
  destruct (some_state c MUST_FALSE neg_lits) eqn:Hn; [done|].
  destruct Hf as [H|H]; apply some_state_true in H; simpl in *; congruence.
Qed.

Lemma elem_of_propagate_clause_unforced cl c d :
  ¬ clause_forced cl c →
  d ∈ propagate_clause cl c ↔
  (∃ var, var ∈ cl.1 ∧ candidate c MUST_FALSE MUST_TRUE var d) ∨
  (∃ var, var ∈ cl.2 ∧ candidate c MUST_TRUE MUST_FALSE var d).
Proof.
  destruct cl as [pos_lits neg_lits]. intros Hf. unfold propagate_clause.
  rewrite !copy_eq.
  destruct (some_state c MUST_TRUE pos_lits) eqn:Hp.
  { destruct Hf. left. by apply some_state_true. }
  destruct (some_state c MUST_FALSE neg_lits) eqn:Hn.
  { destruct Hf. right. by apply some_state_true. }
  rewrite !elem_of_try_loop. simpl. split.
  - intros [[H|H]|H]; [by apply elem_of_nil in H|by left|by right].
  - intros [H|H]; [left; by right|by right].
Qed.

(** Every descendant is the ancestor itself or the ancestor with one
    variable, so far UNKNOWN, forced to [MUST_TRUE] (a positive literal) or
    [MUST_FALSE] (a negative literal). *)
Lemma propagate_clause_cases cl c d :
  d ∈ propagate_clause cl c →
  (clause_forced cl c ∧ d = c) ∨
  (∃ var, var ∈ cl.1 ∧ get_state c var = UNKNOWN ∧
          var_states d = <[var := MUST_TRUE]> (var_states c)) ∨
  (∃ var, var ∈ cl.2 ∧ get_state c var = UNKNOWN ∧
          var_states d = <[var := MUST_FALSE]> (var_states c)).
Proof.
  intros Hin. destruct (clause_forced_dec cl c) as [Hf|Hf].
  - left. rewrite propagate_clause_forced, copy_eq in Hin by done.
    apply list_elem_of_singleton in Hin. done.
  - right. apply elem_of_propagate_clause_unforced in Hin; [|done].
    destruct Hin as [(var & Hin & _ & Hset)|(var & Hin & _ & Hset)];
      rewrite copy_eq in Hset; apply set_state_true in Hset as [[Hs|Hs] Hd].
    + destruct Hf. left. eauto.
    + left. eauto.
    + destruct Hf. right. eauto.
    + right. eauto.
Qed.

(** The converse: an UNKNOWN literal of a clause not yet forced yields the
    descendant that forces it. *)
Lemma propagate_clause_pos cl c var :
  ¬ clause_forced cl c → var ∈ cl.1 → get_state c var = UNKNOWN →
  mkConstraintSet (<[var := MUST_TRUE]> (var_states c)) ∈ propagate_clause cl c.
Proof.
  intros Hf Hin Hu. apply elem_of_propagate_clause_unforced; [done|].
  left. exists var. split; [done|]. split; [congruence|].
  rewrite copy_eq. unfold set_state. rewrite Hu.
  case_decide as Hd; [done|]. destruct Hd. by right.
Qed.

Lemma propagate_clause_neg cl c var :
  ¬ clause_forced cl c → var ∈ cl.2 → get_state c var = UNKNOWN →
  mkConstraintSet (<[var := MUST_FALSE]> (var_states c)) ∈ propagate_clause cl c.
Proof.
  intros Hf Hin Hu. apply elem_of_propagate_clause_unforced; [done|].
  right. exists var. split; [done|]. split; [congruence|].
  rewrite copy_eq. unfold set_state. rewrite Hu.
  case_decide as Hd; [done|]. destruct Hd. by right.
Qed.

(** Forced states survive in every descendant. *)
Lemma propagate_clause_keeps cl c d var s :
  d ∈ propagate_clause cl c →
  s = MUST_TRUE ∨ s = MUST_FALSE →
  var_states c !! var = Some s → var_states d !! var = Some s.
Proof.
  intros Hin Hs Hc.
  destruct (propagate_clause_cases _ _ _ Hin)
    as [[_ ->]|[(v & _ & Hu & ->)|(v & _ & Hu & ->)]]; [done| |];
    (destruct (decide (v = var)) as [->|Hne];
     [unfold get_state in Hu; rewrite Hc in Hu; simpl in Hu;
      destruct Hs; congruence
     |by rewrite lookup_insert_ne]).
Qed.

Lemma propagate_clause_conflict_free cl c d :
  conflict_free c → d ∈ propagate_clause cl c → conflict_free d.
Proof.
  intros Hcf Hin var.
  destruct (propagate_clause_cases _ _ _ Hin)
    as [[_ ->]|[(v & _ & _ & ->)|(v & _ & _ & ->)]]; [apply Hcf| |];
    (destruct (decide (v = var)) as [->|Hne];
     [by rewrite lookup_insert_eq|rewrite lookup_insert_ne by done; apply Hcf]).
Qed.

(** Every descendant forces a literal of the clause it was made for. *)
Lemma propagate_clause_forces cl c d :
  d ∈ propagate_clause cl c → clause_forced cl d.
Proof.
  intros Hin.
  destruct (propagate_clause_cases _ _ _ Hin)
    as [[Hf ->]|[(v & Hv & _ & Hd)|(v & Hv & _ & Hd)]]; [done| |].
  - left. exists v. split; [done|].
    apply get_state_MUST_TRUE. by rewrite Hd, lookup_insert_eq.
  - right. exists v. split; [done|].
    apply get_state_MUST_FALSE. by rewrite Hd, lookup_insert_eq.
Qed.

Lemma clause_forced_keeps cl' cl c d :
  d ∈ propagate_clause cl c → clause_forced cl' c → clause_forced cl' d.
Proof.
  intros Hin [(v & Hv & Hs)|(v & Hv & Hs)].
  - left. exists v. split; [done|]. apply get_state_MUST_TRUE.
    apply get_state_MUST_TRUE in Hs.
    eapply propagate_clause_keeps; eauto.
  - right. exists v. split; [done|]. apply get_state_MUST_FALSE.
    apply get_state_MUST_FALSE in Hs.
    eapply propagate_clause_keeps; eauto.
Qed.

(** ** The frontier transition *)

(** A loop that appends [f a] for each [a] builds the concatenation. *)
Lemma elem_of_append_loop {A B} (g : list B → A → list B) (f : A → list B)
    (l : list A) (acc : list B) (x : B) :
  (∀ acc a, g acc a = acc ++ f a) →
  x ∈ foldl g acc l ↔ x ∈ acc ∨ ∃ a, a ∈ l ∧ x ∈ f a.
Proof.
  intros Hg. revert acc. induction l as [|a l IH]; intros acc; simpl.
  - split; [auto|]. intros [?|(a & Ha & _)]; [done|].
    by apply elem_of_nil in Ha.
  - rewrite IH, Hg, elem_of_app. split.
    + intros [[?|?]|(b & Hb & Hx)]; [by left| |].
      * right. exists a. split; [left|done].
      * right. exists b. split; [by right|done].
    + intros [?|(b & [->|Hb]%elem_of_cons & Hx)]; [by left; left| |].
      * by left; right.
      * right. by exists b.
Qed.

Lemma append_loop_concat {A B} (g : list B → A → list B) (f : A → list B)
    (l : list A) (acc : list B) :
  (∀ acc a, g acc a = acc ++ f a) →
  foldl g acc l = acc ++ concat (map f l).
Proof.
  intros Hg. revert acc. induction l as [|a l IH]; intros acc; simpl.
  - by rewrite app_nil_r.
  - by rewrite IH, Hg, app_assoc.
Qed.

Lemma extend_frontier_concat cl F :
  extend_frontier cl F = concat (map (propagate_clause cl) F).
Proof.
  unfold extend_frontier.
  by rewrite (append_loop_concat _ (propagate_clause cl)).
Qed.

Lemma elem_of_extend_frontier cl F d :
  d ∈ extend_frontier cl F ↔ ∃ c, c ∈ F ∧ d ∈ propagate_clause cl c.
Proof.
  rewrite extend_frontier_concat, list_elem_of_In, in_concat. split.
  - intros (l & Hl & Hd). apply in_map_iff in Hl as (c & <- & Hc).
    exists c. by rewrite !list_elem_of_In.
  - intros (c & Hc & Hd). exists (propagate_clause cl c).
    rewrite <- !list_elem_of_In. split; [|done].
    apply list_elem_of_In, in_map. by apply list_elem_of_In.
Qed.

Lemma extend_frontier_nil cl : extend_frontier cl [] = [].
Proof. reflexivity. Qed.

(** ** Unfolding the driver *)

Lemma process_clauses_halt cl rest F :
  extend_frontier cl F = [] →
  process_clauses (cl :: rest) F = ([[]], Return None).
Proof. intros H. simpl. by rewrite H. Qed.

Lemma process_clauses_continue cl rest F :
  extend_frontier cl F ≠ [] →
  process_clauses (cl :: rest) F =
    (extend_frontier cl F :: (process_clauses rest (extend_frontier cl F)).1,
     (process_clauses rest (extend_frontier cl F)).2).
Proof.
  intros H. simpl. destruct (extend_frontier cl F) as [|d F'] eqn:E; [done|].
  by destruct (process_clauses rest (d :: F')).
Qed.

Lemma satisfy_cnf_cons cl rest :
  satisfy_cnf (cl :: rest) =
    (process_clauses (cl :: rest) [new_ConstraintSet]).2.
Proof. reflexivity. Qed.

(** ** Invariants of the frontier *)

Lemma frontier_after_nil cs : frontier_after [] cs = [].
Proof. induction cs as [|cl cs IH]; [done|]. simpl. by rewrite extend_frontier_nil. Qed.

Lemma extend_frontier_conflict_free cl F :
  Forall conflict_free F → Forall conflict_free (extend_frontier cl F).
Proof.
  rewrite !Forall_forall. intros HF d Hd.
  apply elem_of_extend_frontier in Hd as (c & Hc & Hd).
  eapply propagate_clause_conflict_free; eauto.
Qed.

Lemma process_clauses_conflict_free cs F :
  Forall conflict_free F →
  Forall (Forall conflict_free) (process_clauses cs F).1.
Proof.
  revert F. induction cs as [|cl rest IH]; intros F HF; [by constructor|].
  destruct (decide (extend_frontier cl F = [])) as [E|E].
  - rewrite process_clauses_halt by done. simpl. by repeat constructor.
  - rewrite process_clauses_continue by done. simpl.
    pose proof (extend_frontier_conflict_free cl F HF). constructor; auto.
Qed.

Lemma process_clauses_no_raise cs F e :
  F ≠ [] → (process_clauses cs F).2 ≠ Raise e.
Proof.
  revert F. induction cs as [|cl rest IH]; intros F HF.
  - simpl. by destruct F.
  - destruct (decide (extend_frontier cl F = [])) as [E|E].
    + by rewrite process_clauses_halt.
    + rewrite process_clauses_continue by done. simpl. by apply IH.
Qed.

(** The recorded frontiers are the successive folds of the transition. *)
Lemma process_clauses_trace cs F i Fr :
  (process_clauses cs F).1 !! i = Some Fr →
  Fr = frontier_after F (take (S i) cs).
Proof.
  revert F i. induction cs as [|cl rest IH]; intros F i; [done|].
  destruct (decide (extend_frontier cl F = [])) as [E|E].
  - rewrite process_clauses_halt by done. simpl.
    destruct i as [|i]; [|done]. intros [= <-].
    rewrite take_0. simpl. by rewrite E.
  - rewrite process_clauses_continue by done. simpl.
    destruct i as [|i]; simpl.
    + intros [= <-]. reflexivity.
    + apply IH.
Qed.

(** An empty frontier is the last one recorded, and the answer is None. *)
Lemma process_clauses_empty_last cs F i :
  (process_clauses cs F).1 !! i = Some [] →
  length (process_clauses cs F).1 = S i ∧
  (process_clauses cs F).2 = Return None.
Proof.
  revert F i. induction cs as [|cl rest IH]; intros F i; [done|].
  destruct (decide (extend_frontier cl F = [])) as [E|E].
  - rewrite process_clauses_halt by done. simpl.
    destruct i as [|i]; [done|]. by destruct i.
  - rewrite process_clauses_continue by done. simpl.
    destruct i as [|i]; simpl.
    + by intros [= ?].
    + intros H. apply IH in H as [-> ->]. done.
Qed.

(** With a conflict-free, non-empty start the only way to answer None is
    through an empty frontier. *)
Lemma process_clauses_None cs F :
  Forall conflict_free F → F ≠ [] →
  (process_clauses cs F).2 = Return None →
  ∃ i, (process_clauses cs F).1 !! i = Some [].
Proof.
  revert F. induction cs as [|cl rest IH]; intros F HF Hne.
  - simpl. destruct F as [|first F']; [done|].
    apply Forall_cons in HF as [Hcf _].
    rewrite to_assignment_conflict_free by done. done.
  - destruct (decide (extend_frontier cl F = [])) as [E|E].
    + rewrite process_clauses_halt by done. by exists 0%nat.
    + rewrite process_clauses_continue by done. simpl. intros H.
      apply IH in H as [i Hi]; [by exists (S i)| |done].
      by apply extend_frontier_conflict_free.
Qed.

(** A frontier member that forces every clause seen so far ends, if the
    run returns a mapping, in a mapping that satisfies all clauses. *)
Lemma process_clauses_sound seen cs F m :
  Forall conflict_free F →
  Forall (λ c, Forall (λ cl, clause_forced cl c) seen) F →
  (process_clauses cs F).2 = Return (Some m) →
  Forall (clause_satisfied m) (seen ++ cs).
Proof.
  revert seen F. induction cs as [|cl rest IH]; intros seen F Hcf Hseen.
  - simpl. destruct F as [|first F']; [done|].
    apply Forall_cons in Hcf as [Hcf _].
    apply Forall_cons in Hseen as [Hseen _].
    rewrite to_assignment_conflict_free by done. intros [= <-].
    rewrite app_nil_r. eapply Forall_impl; [exact Hseen|].
    intros cl [(v & Hv & Hs)|(v & Hv & Hs)].
    + left. exists v. split; [done|]. apply get_state_MUST_TRUE in Hs.
      by rewrite lookup_fmap, Hs.
    + right. exists v. split; [done|]. apply get_state_MUST_FALSE in Hs.
      by rewrite lookup_fmap, Hs.
  - destruct (decide (extend_frontier cl F = [])) as [E|E].
    + by rewrite process_clauses_halt.
    + rewrite process_clauses_continue by done. simpl. intros H.
      replace (seen ++ cl :: rest) with ((seen ++ [cl]) ++ rest)
        by (by rewrite <- app_assoc).
      apply (IH _ (extend_frontier cl F)); [|  |done].
      * by apply extend_frontier_conflict_free.
      * rewrite Forall_forall in Hseen. apply Forall_forall. intros d Hd.
        apply elem_of_extend_frontier in Hd as (c & Hc & Hd).
        apply Forall_app. split.
        -- eapply Forall_impl; [exact (Hseen c Hc)|].
           intros cl'. by apply (clause_forced_keeps cl' cl c d).
        -- constructor; [|constructor].
           by apply (propagate_clause_forces cl c d).
Qed.

Lemma process_clauses_dom seen cs F m :
  Forall conflict_free F →
  Forall (λ c, ∀ var, var ∈ dom (var_states c) → mentioned seen var) F →
  (process_clauses cs F).2 = Return (Some m) →
  ∀ var, var ∈ dom m → mentioned (seen ++ cs) var.
Proof.
  revert seen F. induction cs as [|cl rest IH]; intros seen F Hcf Hseen.
  - simpl. destruct F as [|first F']; [done|].
    apply Forall_cons in Hcf as [Hcf _].
    apply Forall_cons in Hseen as [Hseen _].
    rewrite to_assignment_conflict_free by done. intros [= <-] var.
    rewrite app_nil_r, dom_fmap. apply Hseen.
  - destruct (decide (extend_frontier cl F = [])) as [E|E].
    + by rewrite process_clauses_halt.
    + rewrite process_clauses_continue by done. simpl. intros H.
      replace (seen ++ cl :: rest) with ((seen ++ [cl]) ++ rest)
        by (by rewrite <- app_assoc).
      apply (IH _ (extend_frontier cl F)); [| |done].
      * by apply extend_frontier_conflict_free.
      * rewrite Forall_forall in Hseen. apply Forall_forall. intros d Hd var.
        apply elem_of_extend_frontier in Hd as (c & Hc & Hd).
        assert (Hold : var ∈ dom (var_states c) → mentioned (seen ++ [cl]) var).
        { intros Hv. destruct (Hseen c Hc var Hv) as (cl' & Hcl' & Hvar).
          exists cl'. split; [|done]. apply elem_of_app. by left. }
        assert (Hnew : ∀ v, v ∈ clause_vars cl → mentioned (seen ++ [cl]) v).
        { intros v Hv. exists cl. split; [|done].
          apply elem_of_app. right. by apply list_elem_of_singleton. }
        destruct (propagate_clause_cases _ _ _ Hd)
          as [[_ ->]|[(v & Hv & _ & ->)|(v & Hv & _ & ->)]]; [done| |];
          rewrite dom_insert, elem_of_union, elem_of_singleton;
          (intros [->|?]; [|by auto]); apply Hnew; unfold clause_vars;
          apply elem_of_app; auto.
Qed.

(** ** Completeness of the search *)

Lemma get_state_free c σ var b :
  conflict_free c → consistent c σ → σ var = b →
  get_state c var = (if b then MUST_TRUE else MUST_FALSE) ∨
  get_state c var = UNKNOWN.
Proof.
  intros Hcf Hcons Hb. pose proof (Hcf var) as Hc.
  destruct (Hcons var) as [Ht Hf]. unfold get_state.
  destruct (var_states c !! var) as [[]|]; simpl; auto.
  - destruct b; auto. specialize (Ht eq_refl). congruence.
  - destruct b; auto. specialize (Hf eq_refl). congruence.
  - done.
Qed.

Lemma consistent_insert c σ var b :
  consistent c σ → σ var = b →
  consistent
    (mkConstraintSet
       (<[var := if b then MUST_TRUE else MUST_FALSE]> (var_states c))) σ.
Proof.
  intros Hcons Hb v. simpl. destruct (decide (var = v)) as [->|Hne].
  - rewrite lookup_insert_eq. destruct b; split; congruence.
  - rewrite lookup_insert_ne by done. apply Hcons.
Qed.

Lemma propagate_clause_complete cl c σ :
  conflict_free c → consistent c σ → models σ cl →
  ∃ d, d ∈ propagate_clause cl c ∧ consistent d σ.
Proof.
  intros Hcf Hcons Hm. destruct (clause_forced_dec cl c) as [Hf|Hf].
  { exists c. split; [|done].
    rewrite propagate_clause_forced, copy_eq by done. left. }
  destruct Hm as [(var & Hin & Hv)|(var & Hin & Hv)].
  - destruct (get_state_free c σ var true Hcf Hcons Hv) as [Hs|Hs].
    { destruct Hf. left. eauto. }
    eexists. split; [by apply propagate_clause_pos|].
    by apply (consistent_insert c σ var true).
  - destruct (get_state_free c σ var false Hcf Hcons Hv) as [Hs|Hs].
    { destruct Hf. right. eauto. }
    eexists. split; [by apply propagate_clause_neg|].
    by apply (consistent_insert c σ var false).
Qed.

Lemma process_clauses_complete cs F σ :
  Forall conflict_free F →
  (∃ c, c ∈ F ∧ consistent c σ) →
  Forall (models σ) cs →
  ∃ m, (process_clauses cs F).2 = Return (Some m).
Proof.
  revert F. induction cs as [|cl rest IH]; intros F Hcf (c & Hc & Hcons) Hm.
  - simpl. destruct F as [|first F']; [by apply elem_of_nil in Hc|].
    apply Forall_cons in Hcf as [Hcf _].
    rewrite to_assignment_conflict_free by done. eauto.
  - apply Forall_cons in Hm as [Hcl Hm].
    assert (Hcfc : conflict_free c) by (rewrite Forall_forall in Hcf; auto).
    destruct (propagate_clause_complete cl c σ Hcfc Hcons Hcl) as (d & Hd & Hdc).
    assert (Hin : d ∈ extend_frontier cl F).
    { apply elem_of_extend_frontier. eauto. }
    assert (E : extend_frontier cl F ≠ []).
    { intros E. rewrite E in Hin. by apply elem_of_nil in Hin. }
    rewrite process_clauses_continue by done. simpl.
    apply IH; [by apply extend_frontier_conflict_free|eauto|done].
Qed.

Lemma consistent_new σ : consistent new_ConstraintSet σ.
Proof. intros var. simpl. rewrite lookup_empty. split; congruence. Qed.

(** A satisfiable clause list gets a mapping. *)
Lemma satisfy_cnf_complete cs σ :
  Forall (models σ) cs → ∃ m, satisfy_cnf cs = Return (Some m).
Proof.
  intros Hm. destruct cs as [|cl rest]; [by eexists|].
  rewrite satisfy_cnf_cons. apply (process_clauses_complete _ _ σ); [|  |done].
  - apply initial_frontier_conflict_free.
  - exists new_ConstraintSet. split; [left|apply consistent_new].
Qed.

(** The search returns; it never raises. *)
Lemma satisfy_cnf_returns cs : ∃ r, satisfy_cnf cs = Return r.
Proof.
  destruct (satisfy_cnf cs) as [r|e] eqn:E; [by eexists|].
  destruct cs as [|cl rest]; [done|].
  rewrite satisfy_cnf_cons in E. by apply process_clauses_no_raise in E.
Qed.

Lemma satisfy_cnf_satisfies cs m :
  satisfy_cnf cs = Return (Some m) → Forall (clause_satisfied m) cs.
Proof.
  destruct cs as [|cl rest]; [by constructor|].
  rewrite satisfy_cnf_cons. apply (process_clauses_sound []).
  - apply initial_frontier_conflict_free.
  - by repeat constructor.
Qed.

(** * The claims *)

(** C1. Satisfiability soundness: whenever [satisfy_cnf] returns a mapping,
    every clause of the input has a positive literal the mapping sends to
    true or a negative literal the mapping sends to false. *)
Theorem satisfy_cnf_sound (cs : list clause) (m : gmap Z bool) :
  satisfy_cnf cs = Return (Some m) →
  ∀ cl, cl ∈ cs →
    (∃ var, var ∈ cl.1 ∧ m !! var = Some true) ∨
    (∃ var, var ∈ cl.2 ∧ m !! var = Some false).
Proof.
  intros H cl Hcl. apply satisfy_cnf_satisfies in H.
  rewrite Forall_forall in H. exact (H cl Hcl).
Qed.

Lemma satisfy_cnf_sound_witness :
  (∃ var, var ∈ ([] : list Z) ∧
          ({[1 := true; 2 := false]} : gmap Z bool) !! var = Some true) ∨
  (∃ var, var ∈ [1; 2] ∧
          ({[1 := true; 2 := false]} : gmap Z bool) !! var = Some false).
Proof.
  refine (satisfy_cnf_sound [([1; 2], []); ([], [1; 2])]
            {[1 := true; 2 := false]} _ ([], [1; 2]) _).
  - vm_compute. reflexivity.
  - right. left.
Defined.

(** C3, as stated, fails: on the single clause (x1 ∨ x2) the first
    surviving constraint set forces x1 only, and the returned mapping has
    no entry for x2. *)
Lemma result_totality_counterexample :
  satisfy_cnf [([1; 2], [])] = Return (Some {[1 := true]}) ∧
  ([1; 2], []) ∈ [([1; 2], []) : clause] ∧
  2 ∈ clause_vars ([1; 2], []) ∧
  2 ∉ dom ({[1 := true]} : gmap Z bool).
Proof.
  split; [vm_compute; reflexivity|].
  split; [left|].
  split; [right; left|].
  rewrite dom_singleton, elem_of_singleton. lia.
Qed.

Lemma add_missing_lookup all_variables (m : gmap Z bool) var :
  add_missing all_variables m !! var =
    match m !! var with
    | Some b => Some b
    | None => if decide (var ∈ all_variables) then Some true else None
    end.
Proof.
  unfold add_missing. revert m.
  induction all_variables as [|v vs IH]; intros m; cbn [foldl].
  - destruct (m !! var); [done|]. rewrite decide_False; [done|].
    apply not_elem_of_nil.
  - rewrite IH. destruct (decide (var = v)) as [->|Hne].
    + rewrite (decide_True _ _ (list_elem_of_here v vs)).
      destruct (decide (v ∉ dom m)) as [Hv|Hv].
      * apply not_elem_of_dom in Hv. by rewrite lookup_insert_eq, Hv.
      * apply dec_stable, elem_of_dom in Hv as [b Hb]. by rewrite Hb.
    + assert (Hiff : var ∈ vs ↔ var ∈ v :: vs).
      { rewrite elem_of_cons. split; [auto|]. intros [?|?]; [done|auto]. }
      rewrite (decide_ext _ _ (Some true) None Hiff).
      destruct (decide (v ∉ dom m)); [|done].
      by rewrite lookup_insert_ne.
Qed.

(** C3, amended: whenever [satisfy_cnf] returns a mapping, its domain holds
    only variables mentioned in the clauses and, for every clause, at least
    one variable of that clause; the completion step of the caller (each
    variable it knows and the mapping lacks is added with value true) keeps
    the returned entries and covers every variable it is given. *)
Theorem result_domain (cs : list clause) (m : gmap Z bool) :
  satisfy_cnf cs = Return (Some m) →
  (∀ var, var ∈ dom m → ∃ cl, cl ∈ cs ∧ var ∈ clause_vars cl) ∧
  (∀ cl, cl ∈ cs → ∃ var, var ∈ clause_vars cl ∧ var ∈ dom m) ∧
  (∀ all_variables var b,
     m !! var = Some b → add_missing all_variables m !! var = Some b) ∧
  (∀ all_variables var,
     var ∈ all_variables → var ∈ dom (add_missing all_variables m)).
Proof.
  intros H. split; [|split; [|split]].
  - destruct cs as [|cl rest].
    + injection H as <-. intros var. by rewrite dom_empty, elem_of_empty.
    + rewrite satisfy_cnf_cons in H. intros var Hvar.
      apply (process_clauses_dom [] _ _ _) with (var := var) in H; try done.
      * apply initial_frontier_conflict_free.
      * constructor; [|constructor]. intros v. simpl.
        by rewrite dom_empty, elem_of_empty.
  - intros cl Hcl. apply satisfy_cnf_satisfies in H.
    rewrite Forall_forall in H.
    destruct (H cl Hcl) as [(var & Hin & Hv)|(var & Hin & Hv)];
      exists var; (split; [apply elem_of_app; auto|by apply elem_of_dom]).
  - intros vs var b Hb. by rewrite add_missing_lookup, Hb.
  - intros vs var Hin. apply elem_of_dom. rewrite add_missing_lookup.
    destruct (m !! var); [done|]. by rewrite decide_True.
Qed.

Lemma result_domain_witness :
  (∀ var, var ∈ dom ({[1 := true]} : gmap Z bool) →
     ∃ cl, cl ∈ [([1; 2], []) : clause] ∧ var ∈ clause_vars cl) ∧
  (∀ cl, cl ∈ [([1; 2], []) : clause] →
     ∃ var, var ∈ clause_vars cl ∧ var ∈ dom ({[1 := true]} : gmap Z bool)) ∧
  (∀ all_variables var b,
     ({[1 := true]} : gmap Z bool) !! var = Some b →
     add_missing all_variables {[1 := true]} !! var = Some b) ∧
  (∀ all_variables var,
     var ∈ all_variables → var ∈ dom (add_missing all_variables {[1 := true]})).
Proof.
  apply (result_domain [([1; 2], [])]). vm_compute. reflexivity.
Defined.

Lemma frontiers_cons cl rest :
  frontiers (cl :: rest) =
    (process_clauses (cl :: rest) [new_ConstraintSet]).1.
Proof. reflexivity. Qed.

Lemma satisfy_cnf_None_iff cs :
  satisfy_cnf cs = Return None ↔ ∃ i, frontiers cs !! i = Some [].
Proof.
  destruct cs as [|cl rest].
  - split; [done|]. by intros [i ?].
  - rewrite satisfy_cnf_cons, frontiers_cons. split.
    + apply process_clauses_None; [|done].
      apply initial_frontier_conflict_free.
    + intros [i Hi]. by apply process_clauses_empty_last in Hi as [_ ?].
Qed.

(** Every clause up to and including the first that empties the frontier
    is processed: its frontier is recorded at its position. *)
Lemma process_clauses_reaches cs F (i : nat) :
  (i < length cs)%nat →
  (∀ j, (j < i)%nat → frontier_after F (take (S j) cs) ≠ []) →
  (process_clauses cs F).1 !! i = Some (frontier_after F (take (S i) cs)).
Proof.
  revert F i. induction cs as [|cl rest IH]; intros F i Hi Hbefore.
  { simpl in Hi. lia. }
  destruct i as [|i].
  - destruct (decide (extend_frontier cl F = [])) as [E|E].
    + rewrite process_clauses_halt by done. cbn. by rewrite E.
    + by rewrite process_clauses_continue.
  - assert (E : extend_frontier cl F ≠ []).
    { apply (Hbefore 0%nat). lia. }
    rewrite process_clauses_continue by done. cbn.
    apply IH; [simpl in Hi; lia|].
    intros j Hj. apply (Hbefore (S j)). lia.
Qed.

(** A prefix of the clauses that empties the frontier makes the answer
    None. *)
Lemma process_clauses_emptied cs F (i : nat) :
  (i < length cs)%nat → frontier_after F (take (S i) cs) = [] →
  (process_clauses cs F).2 = Return None.
Proof.
  revert F i. induction cs as [|cl rest IH]; intros F i Hi Hempty.
  { simpl in Hi. lia. }
  destruct (decide (extend_frontier cl F = [])) as [E|E].
  { by rewrite process_clauses_halt. }
  rewrite process_clauses_continue by done. cbn.
  destruct i as [|i]; [done|].
  apply (IH _ i); [simpl in Hi; lia|done].
Qed.

Lemma process_clauses_trace_length cs F :
  (length (process_clauses cs F).1 ≤ length cs)%nat.
Proof.
  revert F. induction cs as [|cl rest IH]; intros F; [done|].
  destruct (decide (extend_frontier cl F = [])) as [E|E].
  - rewrite process_clauses_halt by done. simpl. lia.
  - rewrite process_clauses_continue by done. simpl.
    specialize (IH (extend_frontier cl F)). lia.
Qed.

(** When no prefix empties the frontier, every clause is processed and
    the answer is read off the first member of the last frontier. *)
Lemma process_clauses_done cs F :
  F ≠ [] →
  (∀ i, (i < length cs)%nat → frontier_after F (take (S i) cs) ≠ []) →
  length (process_clauses cs F).1 = length cs ∧
  ∃ first others, frontier_after F cs = first :: others ∧
                  (process_clauses cs F).2 = Return (to_assignment first).
Proof.
  revert F. induction cs as [|cl rest IH]; intros F HF Hne.
  - destruct F as [|first others]; [done|]. split; [done|].
    by exists first, others.
  - assert (E : extend_frontier cl F ≠ []).
    { apply (Hne 0%nat). simpl. lia. }
    rewrite process_clauses_continue by done. cbn.
    destruct (IH (extend_frontier cl F) E) as [Hlen Hres].
    { intros i Hi. apply (Hne (S i)). simpl. lia. }
    split; [by rewrite Hlen|done].
Qed.

(** C4. Frontier emptying and immediate halt: [satisfy_cnf] returns None
    exactly when the frontier is empty after some clause; an empty frontier
    after clause [i] is the last one recorded (no later clause is
    processed) and the result is then None; the transition maps the empty
    frontier to the empty frontier whatever clauses follow; and the result
    is a returned value, never a raised exception.  The frontier recorded
    at position [i] is the one obtained from the clauses up to [i].

    The frontiers are also tied to the clause list itself, by the fold
    [frontier_after] of the transition: the answer is None exactly when
    some prefix of the clauses folds to the empty frontier; every clause up
    to and including the first such prefix is processed, its frontier
    recorded at its position; and when no prefix does, all clauses are
    processed and the answer is [to_assignment] of the first member of the
    last frontier. *)
Theorem frontier_emptying (cs : list clause) :
  (satisfy_cnf cs = Return None ↔ ∃ i, frontiers cs !! i = Some []) ∧
  (∀ i, frontiers cs !! i = Some [] →
        length (frontiers cs) = S i ∧ satisfy_cnf cs = Return None) ∧
  (∀ i F, frontiers cs !! i = Some F →
          F = frontier_after [new_ConstraintSet] (take (S i) cs)) ∧
  (∀ later, frontier_after [] later = []) ∧
  (∃ r, satisfy_cnf cs = Return r) ∧
  (satisfy_cnf cs = Return None ↔
   ∃ i, (i < length cs)%nat ∧
        frontier_after [new_ConstraintSet] (take (S i) cs) = []) ∧
  (∀ i, (i < length cs)%nat →
        (∀ j, (j < i)%nat →
              frontier_after [new_ConstraintSet] (take (S j) cs) ≠ []) →
        frontiers cs !! i
          = Some (frontier_after [new_ConstraintSet] (take (S i) cs))) ∧
  ((∀ i, (i < length cs)%nat →
         frontier_after [new_ConstraintSet] (take (S i) cs) ≠ []) →
   length (frontiers cs) = length cs ∧
   ∃ first others,
     frontier_after [new_ConstraintSet] cs = first :: others ∧
     satisfy_cnf cs = Return (to_assignment first)).
Proof.
  split; [apply satisfy_cnf_None_iff|].
  split; [|split; [|split; [|split; [|split; [|split]]]]].
  - destruct cs as [|cl rest]; [done|].
    rewrite satisfy_cnf_cons, frontiers_cons.
    apply process_clauses_empty_last.
  - destruct cs as [|cl rest]; [done|].
    rewrite frontiers_cons. apply process_clauses_trace.
  - apply frontier_after_nil.
  - apply satisfy_cnf_returns.
  - destruct cs as [|cl rest].
    { split; [done|]. intros (i & Hi & _). simpl in Hi. lia. }
    split.
    + intros [i Hi]%satisfy_cnf_None_iff. exists i.
      rewrite frontiers_cons in Hi. split.
      * apply lookup_lt_Some in Hi.
        pose proof (process_clauses_trace_length (cl :: rest)
                      [new_ConstraintSet]). lia.
      * symmetry. by apply process_clauses_trace.
    + intros (i & Hi & Hempty). rewrite satisfy_cnf_cons.
      by apply (process_clauses_emptied _ _ i).
  - intros i Hi Hbefore. destruct cs as [|cl rest]; [simpl in Hi; lia|].
    rewrite frontiers_cons. by apply process_clauses_reaches.
  - intros Hne. destruct cs as [|cl rest].
    + split; [done|]. exists new_ConstraintSet, []. split; [done|].
      by rewrite to_assignment_conflict_free by apply conflict_free_new.
    + rewrite satisfy_cnf_cons, frontiers_cons.
      by apply process_clauses_done.
Qed.

Lemma frontier_emptying_witness :
  (length (frontiers [([1], []); ([], [1]); ([2], [])]) = 2%nat ∧
   satisfy_cnf [([1], []); ([], [1]); ([2], [])] = Return None) ∧
  satisfy_cnf [([1], []); ([], [1])] = Return None.
Proof.
  split.
  - apply (proj1 (proj2 (frontier_emptying
                           [([1], []); ([], [1]); ([2], [])])) 1%nat).
    vm_compute. reflexivity.
  - apply (proj2 (proj1 (proj2 (proj2 (proj2 (proj2 (proj2
             (frontier_emptying [([1], []); ([], [1])])))))))).
    exists 1%nat. split; [simpl; lia|vm_compute; reflexivity].
Defined.

(** C5. No-conflict frontier invariant: [propagate_clause] on a
    conflict-free constraint set returns conflict-free constraint sets
    only, and every constraint set of every frontier of a run of
    [satisfy_cnf], the initial one included, is conflict-free. *)
Theorem no_conflict_frontier :
  (∀ cl c d,
     conflict_free c → d ∈ propagate_clause cl c → conflict_free d) ∧
  (∀ cs F c,
     F ∈ [new_ConstraintSet] :: frontiers cs → c ∈ F → conflict_free c).
Proof.
  split; [intros cl c d; apply propagate_clause_conflict_free|].
  intros cs F c HF Hc.
  assert (Hall : Forall (Forall conflict_free)
                   ([new_ConstraintSet] :: frontiers cs)).
  { constructor; [apply initial_frontier_conflict_free|].
    destruct cs as [|cl rest]; [constructor|].
    rewrite frontiers_cons. apply process_clauses_conflict_free.
    apply initial_frontier_conflict_free. }
  rewrite Forall_forall in Hall. specialize (Hall F HF).
  rewrite Forall_forall in Hall. auto.
Qed.

Lemma no_conflict_frontier_witness :
  conflict_free (mkConstraintSet {[1 := MUST_TRUE]}).
Proof.
  apply (proj1 no_conflict_frontier ([1; 2], []) new_ConstraintSet).
  - intros var. simpl. by rewrite lookup_empty.
  - vm_compute. left.
Defined.

(** C6. Already-satisfied short-circuit: when the ancestor holds a positive
    literal's variable at MUST_TRUE or a negative literal's variable at
    MUST_FALSE, [propagate_clause] returns exactly one constraint set, and
    its variable states are the ancestor's. *)
Theorem already_satisfied_short_circuit (cl : clause) (c : ConstraintSet) :
  (∃ var, var ∈ cl.1 ∧ get_state c var = MUST_TRUE) ∨
  (∃ var, var ∈ cl.2 ∧ get_state c var = MUST_FALSE) →
  ∃ d, propagate_clause cl c = [d] ∧ var_states d = var_states c.
Proof.
  intros Hf. exists (copy c). split; [|done].
  by apply propagate_clause_forced.
Qed.

Lemma already_satisfied_short_circuit_witness :
  ∃ d, propagate_clause ([1; 2], [3])
         (mkConstraintSet {[3 := MUST_FALSE]}) = [d] ∧
       var_states d = var_states (mkConstraintSet {[3 := MUST_FALSE]}).
Proof.
  apply (already_satisfied_short_circuit ([1; 2], [3])
           (mkConstraintSet {[3 := MUST_FALSE]})).
  right. exists 3. split; [left|]. vm_compute. reflexivity.
Defined.

Lemma extend_frontier_empty_clause F : extend_frontier ([], []) F = [].
Proof.
  destruct (extend_frontier ([], []) F) as [|d F'] eqn:E; [done|].
  assert (Hd : d ∈ extend_frontier ([], []) F) by (rewrite E; left).
  apply elem_of_extend_frontier in Hd as (c & _ & Hd).
  by apply elem_of_nil in Hd.
Qed.

Lemma process_clauses_empty_clause cs F :
  ([], []) ∈ cs → (process_clauses cs F).2 = Return None.
Proof.
  revert F. induction cs as [|cl rest IH]; intros F Hin.
  { by apply elem_of_nil in Hin. }
  destruct (decide (extend_frontier cl F = [])) as [E|E].
  - by rewrite process_clauses_halt.
  - rewrite process_clauses_continue by done. simpl.
    apply elem_of_cons in Hin as [<-|Hin]; [|by apply IH].
    destruct E. apply extend_frontier_empty_clause.
Qed.

(** C7. Empty clause is always false: [propagate_clause] on the clause
    without literals returns the empty list (for a conflict-free ancestor
    and for any other), and [satisfy_cnf] on a clause list that contains
    such a clause returns None. *)
Theorem empty_clause_always_false :
  (∀ c, propagate_clause ([], []) c = []) ∧
  (∀ cs, ([], []) ∈ cs → satisfy_cnf cs = Return None).
Proof.
  split; [reflexivity|]. intros cs Hin.
  destruct cs as [|cl rest]; [by apply elem_of_nil in Hin|].
  rewrite satisfy_cnf_cons. by apply process_clauses_empty_clause.
Qed.

Lemma empty_clause_always_false_witness :
  satisfy_cnf [([1], []); ([], []); ([2], [])] = Return None.
Proof.
  apply (proj2 empty_clause_always_false [([1], []); ([], []); ([2], [])]).
  right. left.
Defined.

(** C8. Empty formula: [satisfy_cnf] on the empty clause list returns the
    empty mapping, not None, and no clause is processed (no frontier is
    recorded). *)
Theorem empty_formula :
  satisfy_cnf [] = Return (Some ∅) ∧ frontiers [] = [].
Proof. split; reflexivity. Qed.

(** C10. Monotonic forcing: a variable the ancestor holds at MUST_TRUE or
    MUST_FALSE is held at the same state by every constraint set that
    [propagate_clause] returns. *)
Theorem monotonic_forcing (cl : clause) (c d : ConstraintSet) (var : Z) :
  d ∈ propagate_clause cl c →
  get_state c var = MUST_TRUE ∨ get_state c var = MUST_FALSE →
  get_state d var = get_state c var ∧
  var_states d !! var = var_states c !! var.
Proof.
  intros Hin Hs.
  assert (∃ s, (s = MUST_TRUE ∨ s = MUST_FALSE) ∧
               var_states c !! var = Some s) as (s & Hcase & Hc).
  { destruct Hs as [Hs|Hs].
    - exists MUST_TRUE. split; [by left|]. by apply get_state_MUST_TRUE.
    - exists MUST_FALSE. split; [by right|]. by apply get_state_MUST_FALSE. }
  pose proof (propagate_clause_keeps cl c d var s Hin Hcase Hc) as Hd.
  unfold get_state. by rewrite Hd, Hc.
Qed.

Lemma monotonic_forcing_witness :
  get_state (mkConstraintSet {[1 := MUST_FALSE; 2 := MUST_TRUE]}) 1 =
    get_state (mkConstraintSet {[1 := MUST_FALSE]}) 1 ∧
  var_states (mkConstraintSet {[1 := MUST_FALSE; 2 := MUST_TRUE]}) !! 1 =
    var_states (mkConstraintSet {[1 := MUST_FALSE]}) !! 1.
Proof.
  apply (monotonic_forcing ([1; 2], [])).
  - vm_compute. left.
  - right. vm_compute. reflexivity.
Defined.

(** ** CNF extraction *)

Lemma cnf_literals_cases lits pos neg :
  (Forall literal_ok lits ∧
   cnf_literals lits pos neg =
     Return (pos ++ positive_of lits, neg ++ negative_of lits)) ∨
  ((∃ lit, lit ∈ lits ∧ ¬ literal_ok lit) ∧
   ((∃ msg, cnf_literals lits pos neg = Raise (ValueError msg)) ∨
    (cnf_literals lits pos neg = Raise IndexError ∧
     ∃ lit, lit ∈ lits ∧ operandless_not lit))).
Proof.
  revert pos neg. induction lits as [|l rest IH]; intros pos neg.
  { left. split; [constructor|]. simpl. by rewrite !app_nil_r. }
  assert (Hlift : ∀ P : Gate → Prop,
            (∃ lit, lit ∈ rest ∧ P lit) → ∃ lit, lit ∈ l :: rest ∧ P lit).
  { intros P (lit & Hin & HP). exists lit. split; [by right|done]. }
  cbn [cnf_literals].
  destruct (decide (gate_type l = "INPUT"%string)) as [Hi|Hi].
  - destruct (IH (pos ++ [index l]) neg) as [[Hok ->]|[Hbad Hr]].
    + left. split; [constructor; [by left|done]|].
      cbn [positive_of negative_of flat_map].
      rewrite !decide_True by done. by rewrite <- app_assoc.
    + right. split; [by apply Hlift|].
      destruct Hr as [?|[? ?]]; [by left|right]. split; [done|].
      by apply Hlift.
  - destruct (decide (gate_type l = "NOT"%string)) as [Hn|Hn].
    + destruct (inputs l) as [|operand others] eqn:Hin.
      * right. split.
        -- exists l. split; [left|].
           intros [?|(_ & o & os & Heq & _)]; [done|congruence].
        -- right. split; [done|]. exists l. split; [left|done].
      * destruct (decide (gate_type operand ≠ "INPUT"%string)) as [Ho|Ho].
        -- right. split; [|left; by eexists].
           exists l. split; [left|].
           intros [?|(_ & o & os & Heq & Ht)]; [done|].
           rewrite Hin in Heq. injection Heq as <- <-. done.
        -- apply dec_stable in Ho.
           destruct (IH pos (neg ++ [index operand])) as [[Hok ->]|[Hbad Hr]].
           ++ left. split.
              ** constructor; [|done]. right. split; [done|].
                 by exists operand, others.
              ** cbn [positive_of negative_of flat_map].
                 rewrite !decide_False by done. rewrite Hin.
                 by rewrite <- app_assoc.
           ++ right. split; [by apply Hlift|].
              destruct Hr as [?|[? ?]]; [by left|right]. split; [done|].
              by apply Hlift.
    + right. split; [|left; by eexists].
      exists l. split; [left|]. intros [?|[? _]]; done.
Qed.

Lemma cnf_clauses_cases cls clauses :
  ((∀ cl, cl ∈ cls →
      gate_type cl = "OR"%string ∧ Forall literal_ok (inputs cl)) ∧
   cnf_clauses cls clauses = Return (clauses ++ map clause_of cls)) ∨
  ((∃ cl, cl ∈ cls ∧
          (gate_type cl ≠ "OR"%string ∨
           ∃ lit, lit ∈ inputs cl ∧ ¬ literal_ok lit)) ∧
   ((∃ msg, cnf_clauses cls clauses = Raise (ValueError msg)) ∨
    (cnf_clauses cls clauses = Raise IndexError ∧
     ∃ cl lit, cl ∈ cls ∧ lit ∈ inputs cl ∧ operandless_not lit))).
Proof.
  revert clauses. induction cls as [|cl rest IH]; intros clauses.
  { left. split; [by intros cl Hin; apply elem_of_nil in Hin|].
    simpl. by rewrite app_nil_r. }
  cbn [cnf_clauses].
  destruct (decide (gate_type cl ≠ "OR"%string)) as [Ht|Ht].
  { right. split; [|left; by eexists]. exists cl. split; [left|by left]. }
  apply dec_stable in Ht.
  destruct (cnf_literals_cases (inputs cl) [] []) as [[Hok ->]|[Hbad Hr]].
  - cbn [app]. fold (clause_of cl).
    destruct (IH (clauses ++ [clause_of cl]))
      as [[Hrest ->]|[(cl' & Hin' & Hbad') Hr]].
    + left. split.
      * intros cl' [->|Hin]%elem_of_cons; [done|by apply Hrest].
      * by rewrite <- app_assoc.
    + right. split; [exists cl'; split; [by right|done]|].
      destruct Hr as [?|[? (c & lit & Hc & Hl)]]; [by left|right].
      split; [done|]. exists c, lit. split; [by right|done].
  - right. split; [exists cl; split; [left|by right]|].
    destruct Hr as [[msg ->]|[-> (lit & Hl)]]; [left; by eexists|right].
    split; [done|]. exists cl, lit. split; [left|done].
Qed.

Lemma gate_to_cnf_clauses_cases circuit :
  (¬ malformed circuit ∧
   gate_to_cnf_clauses circuit = Return (map clause_of (inputs circuit))) ∨
  (malformed circuit ∧
   ((∃ msg, gate_to_cnf_clauses circuit = Raise (ValueError msg)) ∨
    (gate_to_cnf_clauses circuit = Raise IndexError ∧
     ∃ cl lit, cl ∈ inputs circuit ∧ lit ∈ inputs cl ∧ operandless_not lit))).
Proof.
  unfold gate_to_cnf_clauses, malformed.
  destruct (decide (gate_type circuit ≠ "AND"%string)) as [Ht|Ht].
  { right. split; [by left|left; by eexists]. }
  apply dec_stable in Ht.
  destruct (cnf_clauses_cases (inputs circuit) []) as [[Hok ->]|[Hbad Hr]].
  - left. split; [|done].
    intros [?|(cl & Hin & [Hor|(lit & Hl & Hlit)])]; [done| |].
    + by destruct (Hok cl Hin).
    + destruct (Hok cl Hin) as [_ Hall]. rewrite Forall_forall in Hall. auto.
  - right. split; [by right|done].
Qed.

(** On a circuit of the right shape the extraction returns one pair per OR
    child, in order. *)
Lemma gate_to_cnf_clauses_well_formed circuit :
  ¬ malformed circuit →
  gate_to_cnf_clauses circuit = Return (map clause_of (inputs circuit)).
Proof.
  intros H. by destruct (gate_to_cnf_clauses_cases circuit) as [[_ ?]|[? _]].
Qed.

(** The extraction raises exactly on the malformed circuits. *)
Lemma gate_to_cnf_clauses_raises circuit :
  (∃ e, gate_to_cnf_clauses circuit = Raise e) ↔ malformed circuit.
Proof.
  destruct (gate_to_cnf_clauses_cases circuit)
    as [[Hok Hr]|[Hbad [[msg Hr]|[Hr _]]]]; rewrite Hr.
  - split; [by intros [e ?]|done].
  - split; [done|]. by eexists.
  - split; [done|]. by eexists.
Qed.

(** When no literal is a NOT gate without operand, what it raises on a
    malformed circuit is a ValueError. *)
Lemma gate_to_cnf_clauses_ValueError circuit :
  (∀ cl lit, cl ∈ inputs circuit → lit ∈ inputs cl → ¬ operandless_not lit) →
  (∃ msg, gate_to_cnf_clauses circuit = Raise (ValueError msg)) ↔
  malformed circuit.
Proof.
  intros Hop.
  destruct (gate_to_cnf_clauses_cases circuit)
    as [[Hok Hr]|[Hbad [[msg Hr]|[Hr (cl & lit & Hc & Hl & Hn)]]]].
  - rewrite Hr. split; [by intros [e ?]|done].
  - rewrite Hr. split; [done|]. by eexists.
  - by destruct (Hop cl lit Hc Hl).
Qed.

(** C9. Malformed CNF rejection fails on a NOT literal without operand:
    the circuit is malformed in the sense of the claim (the literal is
    neither an INPUT nor a NOT applied to an INPUT), yet what
    [gate_to_cnf_clauses] raises is the IndexError of [literal.inputs[0]],
    not a ValueError. *)
Theorem operandless_not_IndexError :
  malformed operandless_not_circuit ∧
  gate_to_cnf_clauses operandless_not_circuit = Raise IndexError.
Proof.
  split; [|reflexivity].
  right. eexists. split; [left|]. right.
  eexists. split; [left|].
  intros [H|(_ & o & os & H & _)]; discriminate H.
Qed.

(** ** The pigeonhole formulas *)

Lemma elem_of_range a b x : x ∈ range a b ↔ a ≤ x < b.
Proof. unfold range. rewrite elem_of_seqZ. lia. Qed.

Lemma elem_of_generate_pigeonhole pigeons holes cl :
  cl ∈ generate_pigeonhole pigeons holes ↔
  (∃ p, 1 ≤ p ≤ pigeons ∧ cl = pigeon_clause holes p) ∨
  (∃ h p1 p2, 1 ≤ h ≤ holes ∧ 1 ≤ p1 < p2 ∧ p2 ≤ pigeons ∧
              cl = hole_clause holes h p1 p2).
Proof.
  unfold generate_pigeonhole.
  rewrite (elem_of_append_loop _
    (λ h, concat (map (λ p1,
       concat (map (λ p2, [hole_clause holes h p1 p2])
                   (range (p1 + 1) (pigeons + 1))))
       (range 1 pigeons)))).
  2:{ intros acc h. apply append_loop_concat. intros acc1 p1.
      by apply append_loop_concat. }
  rewrite (elem_of_append_loop _ (λ p, [pigeon_clause holes p])) by done.
  split.
  - intros [[Hnil|(p & Hp & Hcl)]|(h & Hh & Hcl)].
    + by apply elem_of_nil in Hnil.
    + left. exists p. apply elem_of_range in Hp.
      apply list_elem_of_singleton in Hcl. split; [lia|done].
    + right. apply elem_of_range in Hh.
      apply list_elem_of_In, in_concat in Hcl as (l1 & Hl1 & Hcl).
      apply in_map_iff in Hl1 as (p1 & <- & Hp1).
      apply in_concat in Hcl as (l2 & Hl2 & Hcl).
      apply in_map_iff in Hl2 as (p2 & <- & Hp2).
      apply list_elem_of_In, elem_of_range in Hp1, Hp2.
      apply list_elem_of_In, list_elem_of_singleton in Hcl.
      exists h, p1, p2. repeat split; (lia || done).
  - intros [(p & Hp & ->)|(h & p1 & p2 & Hh & Hp1 & Hp2 & ->)].
    + left. right. exists p. split; [apply elem_of_range; lia|left].
    + right. exists h. split; [apply elem_of_range; lia|].
      apply list_elem_of_In, in_concat. eexists. split.
      * apply in_map_iff. exists p1. split; [done|].
        apply list_elem_of_In, elem_of_range. lia.
      * apply in_concat. eexists. split.
        -- apply in_map_iff. exists p2. split; [done|].
           apply list_elem_of_In, elem_of_range. lia.
        -- left. done.
Qed.

(** A variable number determines its pigeon and its hole. *)
Lemma pigeon_hole_unique holes p q h k :
  1 ≤ h ≤ holes → 1 ≤ k ≤ holes →
  (p - 1) * holes + h = (q - 1) * holes + k → p = q ∧ h = k.
Proof.
  intros Hh Hk Heq. assert (p = q) by nia. subst q. split; [done|lia].
Qed.

(** The pigeonhole principle for a relation between pigeons [1..pigeons]
    and holes [1..holes]: when every pigeon has a hole and no two pigeons
    share one, there are at most as many pigeons as holes. *)
Section pigeonhole_principle.

Variable sits : Z → Z → Prop.
Variables pigeons holes : Z.
Hypothesis some_hole :
  ∀ p, 1 ≤ p ≤ pigeons → ∃ h, 1 ≤ h ≤ holes ∧ sits p h.
Hypothesis no_sharing :
  ∀ p1 p2 h, 1 ≤ p1 < p2 → p2 ≤ pigeons → 1 ≤ h ≤ holes →
             sits p1 h → sits p2 h → False.

Lemma assign_holes (ps : list Z) :
  (∀ p, p ∈ ps → 1 ≤ p ≤ pigeons) →
  ∃ hs, Forall2 (λ p h, 1 ≤ h ≤ holes ∧ sits p h) ps hs.
Proof.
  induction ps as [|p ps IH]; intros Hps; [by exists []|].
  destruct (some_hole p) as (h & Hh & Hs); [apply Hps; left|].
  destruct IH as (hs & Hhs); [intros q Hq; apply Hps; by right|].
  exists (h :: hs). by constructor.
Qed.

Lemma pigeonhole_principle : 0 ≤ holes → pigeons ≤ holes.
Proof.
  intros Hholes.
  destruct (assign_holes (seqZ 1 pigeons)) as (hs & Hhs).
  { intros p Hp. apply elem_of_seqZ in Hp. lia. }
  assert (Hnd : NoDup hs).
  { apply NoDup_alt. intros a b h Ha Hb.
    destruct (Forall2_lookup_r _ _ _ _ _ Hhs Ha) as (p1 & Hp1 & Hh & H1).
    destruct (Forall2_lookup_r _ _ _ _ _ Hhs Hb) as (p2 & Hp2 & _ & H2).
    apply lookup_seqZ in Hp1 as [-> ?], Hp2 as [-> ?].
    destruct (decide (a = b)) as [|Hne]; [done|]. exfalso.
    destruct (decide (a < b)%nat).
    - apply (no_sharing (1 + Z.of_nat a) (1 + Z.of_nat b) h); (lia || done).
    - apply (no_sharing (1 + Z.of_nat b) (1 + Z.of_nat a) h); (lia || done). }
  assert (Hsub : hs ⊆+ seqZ 1 holes).
  { apply NoDup_submseteq; [done|]. intros h Hh.
    apply list_elem_of_lookup in Hh as [a Ha].
    destruct (Forall2_lookup_r _ _ _ _ _ Hhs Ha) as (p & _ & Hr & _).
    apply elem_of_seqZ. lia. }
  apply submseteq_length in Hsub.
  apply Forall2_length in Hhs.
  rewrite !length_seqZ in *. lia.
Qed.

End pigeonhole_principle.

(** No mapping satisfies the pigeonhole clauses of more pigeons than
    holes. *)
Lemma pigeonhole_unsatisfiable pigeons holes (m : gmap Z bool) :
  1 ≤ holes → holes < pigeons →
  ¬ Forall (clause_satisfied m) (generate_pigeonhole pigeons holes).
Proof.
  intros Hh Hlt Hall. rewrite Forall_forall in Hall.
  enough (pigeons ≤ holes) by lia.
  apply (pigeonhole_principle
           (λ p h, m !! ((p - 1) * holes + h) = Some true)); [| |lia].
  - intros p Hp.
    destruct (Hall (pigeon_clause holes p)) as [(v & Hv & Hm)|(v & Hv & _)].
    + apply elem_of_generate_pigeonhole. left. by exists p.
    + simpl in Hv. apply list_elem_of_fmap in Hv as (h & -> & Hr).
      apply elem_of_range in Hr. exists h. split; [lia|done].
    + by apply elem_of_nil in Hv.
  - intros p1 p2 h Hp1 Hp2 Hh' H1 H2.
    destruct (Hall (hole_clause holes h p1 p2)) as [(v & Hv & _)|(v & Hv & Hm)].
    + apply elem_of_generate_pigeonhole. right. exists h, p1, p2.
      repeat split; (lia || done).
    + by apply elem_of_nil in Hv.
    + simpl in Hv. apply elem_of_cons in Hv as [->|Hv]; [congruence|].
      apply list_elem_of_singleton in Hv as ->. congruence.
Qed.

Lemma diagonal_true pigeons holes var :
  diagonal pigeons holes var = true ↔
  ∃ p, 1 ≤ p ≤ pigeons ∧ var = (p - 1) * holes + p.
Proof.
  unfold diagonal. rewrite bool_decide_eq_true. split.
  - intros (p & -> & Hp)%list_elem_of_fmap. apply elem_of_range in Hp.
    exists p. split; [lia|done].
  - intros (p & Hp & ->). apply list_elem_of_fmap. exists p.
    split; [done|]. apply elem_of_range. lia.
Qed.

Lemma diagonal_models pigeons holes :
  pigeons ≤ holes →
  Forall (models (diagonal pigeons holes)) (generate_pigeonhole pigeons holes).
Proof.
  intros Hle. apply Forall_forall. intros cl Hcl.
  apply elem_of_generate_pigeonhole in Hcl
    as [(p & Hp & ->)|(h & p1 & p2 & Hh & Hp1 & Hp2 & ->)].
  - left. exists ((p - 1) * holes + p). split.
    + simpl. apply list_elem_of_fmap. exists p. split; [done|].
      apply elem_of_range. lia.
    + apply diagonal_true. by exists p.
  - right. simpl.
    destruct (diagonal pigeons holes ((p1 - 1) * holes + h)) eqn:E1.
    + exists ((p2 - 1) * holes + h). split; [right; left|].
      destruct (diagonal pigeons holes ((p2 - 1) * holes + h)) eqn:E2; [|done].
      apply diagonal_true in E1 as (a & Ha & E1), E2 as (b & Hb & E2).
      apply pigeon_hole_unique in E1 as [? ?]; [|lia..].
      apply pigeon_hole_unique in E2 as [? ?]; [|lia..]. lia.
    + exists ((p1 - 1) * holes + h). split; [left|done].
Qed.

(** C2. Pigeonhole correctness: for [p >= 1] pigeons and [h >= 1] holes,
    [satisfy_cnf] on [generate_pigeonhole p h] returns None when [p > h],
    and returns a mapping that satisfies every clause of the formula when
    [p <= h]. *)
Theorem pigeonhole_correct (p h : Z) :
  1 ≤ p → 1 ≤ h →
  (h < p → satisfy_cnf (generate_pigeonhole p h) = Return None) ∧
  (p ≤ h →
   ∃ m, satisfy_cnf (generate_pigeonhole p h) = Return (Some m) ∧
        ∀ cl, cl ∈ generate_pigeonhole p h → clause_satisfied m cl).
Proof.
  intros Hp Hh. split.
  - intros Hlt.
    destruct (satisfy_cnf_returns (generate_pigeonhole p h)) as [[m|] Hr];
      [|done].
    apply satisfy_cnf_satisfies in Hr.
    by apply pigeonhole_unsatisfiable in Hr.
  - intros Hle.
    destruct (satisfy_cnf_complete _ _ (diagonal_models p h Hle)) as [m Hr].
    exists m. split; [done|].
    apply satisfy_cnf_satisfies in Hr. by rewrite Forall_forall in Hr.
Qed.

Lemma pigeonhole_correct_witness :
  satisfy_cnf (generate_pigeonhole 3 2) = Return None ∧
  ∃ m, satisfy_cnf (generate_pigeonhole 2 2) = Return (Some m) ∧
       ∀ cl, cl ∈ generate_pigeonhole 2 2 → clause_satisfied m cl.
Proof.
  split; [apply (pigeonhole_correct 3 2); lia|
          apply (pigeonhole_correct 2 2); lia].
Defined.

Example pigeonhole_3_2 : satisfy_cnf (generate_pigeonhole 3 2) = Return None.
Proof. vm_compute. reflexivity. Qed.

Example pigeonhole_2_3 :
  satisfy_cnf (generate_pigeonhole 2 3) =
    Return (Some {[1 := true; 2 := false; 3 := false; 4 := false; 5 := true]}).
Proof. vm_compute. reflexivity. Qed.

(** ** Runs on small formulas *)

Example two_clauses_satisfiable :
  satisfy_cnf [([1; 2], []); ([], [1; 2])] =
    Return (Some {[1 := true; 2 := false]}).
Proof. vm_compute. reflexivity. Qed.

Example unit_clash_unsatisfiable :
  satisfy_cnf [([1], []); ([], [1])] = Return None.
Proof. vm_compute. reflexivity. Qed.

Example single_literal_forces :
  frontiers [([1], [])] = [[mkConstraintSet {[1 := MUST_TRUE]}]].
Proof. vm_compute. reflexivity. Qed.

Example top_level_or_rejected :
  gate_to_cnf_clauses
    (mkGate "OR" [mkGate "INPUT" [] (Some "x1"%string) (Some 1)] None None) =
  Raise (ValueError "Top level gate must be AND for CNF form").
Proof. reflexivity. Qed.

Example extraction_in_order :
  gate_to_cnf_clauses
    (mkGate "AND"
       [mkGate "OR" [mkGate "INPUT" [] None (Some 1);
                     mkGate "NOT" [mkGate "INPUT" [] None (Some 2)] None None]
               None None;
        mkGate "OR" [mkGate "INPUT" [] None (Some 3)] None None]
       None None) =
  Return [([Some 1], [Some 2]); ([Some 3], [])].
Proof. reflexivity. Qed.

(** * Further properties *)

(** ** Evaluation and variable collection *)

Lemma evaluate_unfold self input_values :
  evaluate self input_values =
    if decide (gate_type self = "INPUT"%string) then
      match input_values !! index self with
      | Some b => Returns b
      | None => Raises (KeyError (index self))
      end
    else if decide (gate_type self = "NOT"%string) then
      match inputs self with
      | [] => Raises (Exn IndexError)
      | operand :: _ =>
          match evaluate operand input_values with
          | Returns b => Returns (negb b)
          | Raises e => Raises e
          end
      end
    else if decide (gate_type self = "AND"%string) then
      all_of (λ inp, evaluate inp input_values) (inputs self)
    else if decide (gate_type self = "OR"%string) then
      any_of (λ inp, evaluate inp input_values) (inputs self)
    else Raises (Exn (ValueError ("Unknown gate type: " +:+ gate_type self))).
Proof. by destruct self. Qed.

Lemma gather_vars_unfold gate variables :
  gather_vars gate variables =
    foldl (λ variables inp, gather_vars inp variables)
          (if decide (gate_type gate = "INPUT"%string)
           then variables ∪ {[index gate]} else variables)
          (inputs gate).
Proof. by destruct gate. Qed.

Lemma all_of_Raises {A} (f : A → result bool) l e :
  all_of f l = Raises e → ∃ x, x ∈ l ∧ f x = Raises e.
Proof.
  induction l as [|x rest IH]; simpl; [done|].
  destruct (f x) as [[]|e'] eqn:E.
  - intros (y & Hy & Hf)%IH. exists y. split; [by right|done].
  - done.
  - intros [= ->]. exists x. split; [left|done].
Qed.

Lemma any_of_Raises {A} (f : A → result bool) l e :
  any_of f l = Raises e → ∃ x, x ∈ l ∧ f x = Raises e.
Proof.
  induction l as [|x rest IH]; simpl; [done|].
  destruct (f x) as [[]|e'] eqn:E.
  - done.
  - intros (y & Hy & Hf)%IH. exists y. split; [by right|done].
  - intros [= ->]. exists x. split; [left|done].
Qed.

Lemma all_of_total {A} (f : A → result bool) l :
  (∀ x, x ∈ l → ∃ b, f x = Returns b) →
  ∃ b, all_of f l = Returns b ∧
       (b = true ↔ ∀ x, x ∈ l → f x = Returns true).
Proof.
  induction l as [|x rest IH]; intros Hl; simpl.
  { exists true. split; [done|]. split; [|done].
    intros _ x Hx. by apply elem_of_nil in Hx. }
  destruct (Hl x) as [b Hb]; [left|]. rewrite Hb.
  destruct IH as (b' & Hr & Hiff); [intros y Hy; apply Hl; by right|].
  destruct b.
  - exists b'. split; [done|]. rewrite Hiff. split.
    + intros H y [->|Hy]%elem_of_cons; auto.
    + intros H y Hy. apply H. by right.
  - exists false. split; [done|]. split; [done|].
    intros H. specialize (H x (list_elem_of_here _ _)). congruence.
Qed.

Lemma any_of_total {A} (f : A → result bool) l :
  (∀ x, x ∈ l → ∃ b, f x = Returns b) →
  ∃ b, any_of f l = Returns b ∧
       (b = true ↔ ∃ x, x ∈ l ∧ f x = Returns true).
Proof.
  induction l as [|x rest IH]; intros Hl; simpl.
  { exists false. split; [done|]. split; [done|].
    intros (x & Hx & _). by apply elem_of_nil in Hx. }
  destruct (Hl x) as [b Hb]; [left|]. rewrite Hb.
  destruct IH as (b' & Hr & Hiff); [intros y Hy; apply Hl; by right|].
  destruct b.
  - exists true. split; [done|]. split; [|done].
    intros _. exists x. split; [left|done].
  - exists b'. split; [done|]. rewrite Hiff. split.
    + intros (y & Hy & Hf). exists y. split; [by right|done].
    + intros (y & [->|Hy]%elem_of_cons & Hf); [congruence|]. by exists y.
Qed.

Lemma input_below_step g c key :
  c ∈ inputs g → input_below c key → input_below g key.
Proof.
  intros Hc (d & Hd & Ht & Hi). exists d. split; [|done].
  by apply subgate_below with c.
Qed.

Lemma elem_of_gather_vars g variables key :
  key ∈ gather_vars g variables ↔ key ∈ variables ∨ input_below g key.
Proof.
  revert variables. induction g as [g IH] using Gate_nested_ind.
  intros variables. rewrite gather_vars_unfold.
  assert (Hloop : ∀ ins vars,
            Forall (λ c, ∀ vars, key ∈ gather_vars c vars ↔
                                 key ∈ vars ∨ input_below c key) ins →
            key ∈ foldl (λ vars inp, gather_vars inp vars) vars ins ↔
            key ∈ vars ∨ ∃ c, c ∈ ins ∧ input_below c key).
  { induction ins as [|c ins IHins]; intros vars Hall; simpl.
    - split; [auto|]. intros [?|(c & Hc & _)]; [done|].
      by apply elem_of_nil in Hc.
    - apply Forall_cons in Hall as [Hc Hall].
      rewrite IHins, Hc by done. split.
      + intros [[?|?]|(c' & Hc' & Hb)]; [by left| |].
        * right. exists c. split; [left|done].
        * right. exists c'. split; [by right|done].
      + intros [?|(c' & [->|Hc']%elem_of_cons & Hb)]; [by left; left| |].
        * by left; right.
        * right. by exists c'. }
  rewrite Hloop by done. split.
  - intros [Hin|(c & Hc & Hb)].
    + destruct (decide (gate_type g = "INPUT"%string)) as [Ht|Ht]; [|by left].
      apply elem_of_union in Hin as [?|Hk%elem_of_singleton]; [by left|].
      right. exists g. split; [constructor|done].
    + right. by apply input_below_step with c.
  - intros [?|(d & Hd & Ht & Hi)].
    + left. destruct (decide (gate_type g = "INPUT"%string));
        [apply elem_of_union; by left|done].
    + destruct Hd as [|g c Hc Hd].
      * left. rewrite decide_True by done.
        apply elem_of_union. right. by apply elem_of_singleton.
      * right. exists c. split; [done|]. by exists d.
Qed.

Lemma elem_of_collect_circuit_variables circuit key :
  key ∈ collect_circuit_variables circuit ↔ input_below circuit key.
Proof.
  unfold collect_circuit_variables. rewrite elem_of_gather_vars.
  split; [|by right]. intros [H|H]; [|done]. by apply elem_of_empty in H.
Qed.

Lemma evaluate_KeyError_below g input_values key :
  evaluate g input_values = Raises (KeyError key) →
  input_below g key ∧ input_values !! key = None.
Proof.
  induction g as [g IH] using Gate_nested_ind.
  rewrite Forall_forall in IH. rewrite evaluate_unfold.
  destruct (decide (gate_type g = "INPUT"%string)) as [Ht|Ht].
  { destruct (input_values !! index g) eqn:E; [done|]. intros [= <-].
    split; [|done]. exists g. split; [constructor|done]. }
  destruct (decide (gate_type g = "NOT"%string)) as [Hn|Hn].
  { destruct (inputs g) as [|operand others] eqn:Hin; [done|].
    assert (Hop : operand ∈ inputs g) by (rewrite Hin; left).
    destruct (evaluate operand input_values) as [b|e] eqn:E; [done|].
    intros [= ->].
    destruct (IH operand (list_elem_of_here _ _) E) as [Hb Hl].
    split; [|done]. by apply input_below_step with operand. }
  destruct (decide (gate_type g = "AND"%string)) as [Ha|Ha].
  { intros (c & Hc & Hr)%all_of_Raises. destruct (IH c Hc Hr) as [Hb Hl].
    split; [|done]. by apply input_below_step with c. }
  destruct (decide (gate_type g = "OR"%string)) as [Ho|Ho]; [|done].
  intros (c & Hc & Hr)%any_of_Raises. destruct (IH c Hc Hr) as [Hb Hl].
  split; [|done]. by apply input_below_step with c.
Qed.

(** ** Evaluation of an extracted circuit *)

(** What a successful extraction says about the circuit. *)
Lemma gate_to_cnf_clauses_Return circuit raw :
  gate_to_cnf_clauses circuit = Return raw →
  gate_type circuit = "AND"%string ∧
  (∀ cl, cl ∈ inputs circuit →
     gate_type cl = "OR"%string ∧ Forall literal_ok (inputs cl)) ∧
  raw = map clause_of (inputs circuit).
Proof.
  unfold gate_to_cnf_clauses.
  destruct (decide (gate_type circuit ≠ "AND"%string)) as [Ht|Ht]; [done|].
  apply dec_stable in Ht.
  destruct (cnf_clauses_cases (inputs circuit) [])
    as [[Hok ->]|[_ [[msg ->]|[-> _]]]]; [|done..].
  intros [= <-]. done.
Qed.

Lemma evaluate_OR g input_values :
  gate_type g = "OR"%string →
  evaluate g input_values =
    any_of (λ inp, evaluate inp input_values) (inputs g).
Proof. intros H. rewrite evaluate_unfold, H. reflexivity. Qed.

Lemma evaluate_AND g input_values :
  gate_type g = "AND"%string →
  evaluate g input_values =
    all_of (λ inp, evaluate inp input_values) (inputs g).
Proof. intros H. rewrite evaluate_unfold, H. reflexivity. Qed.

Lemma evaluate_INPUT g input_values b :
  gate_type g = "INPUT"%string → input_values !! index g = Some b →
  evaluate g input_values = Returns b.
Proof. intros Ht Hl. by rewrite evaluate_unfold, decide_True, Hl. Qed.

(** The literals of an accepted clause evaluate to the value the dict
    gives to their variable, negated under a NOT. *)
Lemma evaluate_literals lits input_values :
  Forall literal_ok lits →
  (∀ key, key ∈ positive_of lits ++ negative_of lits →
          is_Some (input_values !! key)) →
  ∃ b, any_of (λ inp, evaluate inp input_values) lits = Returns b ∧
       (b = true ↔
        raw_clause_satisfied input_values
          (positive_of lits, negative_of lits)).
Proof.
  unfold raw_clause_satisfied. simpl.
  induction lits as [|l rest IH]; intros Hok Hdom.
  { exists false. split; [done|]. split; [done|].
    intros [(k & Hk & _)|(k & Hk & _)]; by apply elem_of_nil in Hk. }
  apply Forall_cons in Hok as [Hl Hok].
  cbn [any_of positive_of negative_of flat_map] in *.
  fold (positive_of rest) in *. fold (negative_of rest) in *.
  destruct IH as (b' & Hr & Hiff); [done| |].
  { intros key Hkey. apply Hdom.
    apply elem_of_app in Hkey as [?|?]; apply elem_of_app;
      [left|right]; apply elem_of_app; by right. }
  destruct (decide (gate_type l = "INPUT"%string)) as [Ht|Ht].
  - destruct (Hdom (index l)) as [b Hb].
    { apply elem_of_app. left. left. }
    rewrite (evaluate_INPUT l input_values b) by done.
    destruct b.
    + exists true. split; [done|]. split; [|done]. intros _.
      left. exists (index l). split; [left|done].
    + exists b'. split; [done|]. rewrite Hiff. simpl. split.
      * intros [(k & Hk & Hv)|?]; [|by right].
        left. exists k. split; [by right|done].
      * intros [(k & [->|Hk]%elem_of_cons & Hv)|?]; [congruence| |by right].
        left. by exists k.
  - destruct Hl as [?|(Hn & operand & others & Hin & Hop)]; [done|].
    rewrite Hin in *.
    destruct (Hdom (index operand)) as [b Hb].
    { apply elem_of_app. right. left. }
    rewrite evaluate_unfold, decide_False, decide_True, Hin by done.
    rewrite (evaluate_INPUT operand input_values b) by done.
    destruct b; simpl.
    + exists b'. split; [done|]. rewrite Hiff. split.
      * intros [?|(k & Hk & Hv)]; [by left|].
        right. exists k. split; [by right|done].
      * intros [?|(k & [->|Hk]%elem_of_cons & Hv)]; [by left|congruence|].
        right. by exists k.
    + exists true. split; [done|]. split; [|done]. intros _.
      right. exists (index operand). split; [left|done].
Qed.

Lemma evaluate_extracted_aux circuit raw input_values :
  gate_to_cnf_clauses circuit = Return raw →
  (∀ cl key, cl ∈ raw → key ∈ cl.1 ++ cl.2 →
             is_Some (input_values !! key)) →
  ∃ b, evaluate circuit input_values = Returns b ∧
       (b = true ↔ ∀ cl, cl ∈ raw → raw_clause_satisfied input_values cl).
Proof.
  intros (Ht & Hcls & ->)%gate_to_cnf_clauses_Return Hdom.
  rewrite evaluate_AND by done.
  assert (Hcl : ∀ c, c ∈ inputs circuit →
            ∃ b, evaluate c input_values = Returns b ∧
                 (b = true ↔ raw_clause_satisfied input_values (clause_of c))).
  { intros c Hc. destruct (Hcls c Hc) as [Hor Hok].
    rewrite evaluate_OR by done. apply evaluate_literals; [done|].
    intros key Hkey. apply (Hdom (clause_of c)); [|done].
    apply list_elem_of_fmap. by exists c. }
  destruct (all_of_total (λ inp, evaluate inp input_values) (inputs circuit))
    as (b & Hr & Hiff).
  { intros c Hc. destruct (Hcl c Hc) as (b & Hb & _). by exists b. }
  exists b. split; [done|]. rewrite Hiff. split.
  - intros H cl (c & -> & Hc)%list_elem_of_fmap.
    destruct (Hcl c Hc) as (b' & Hb & Hsat). apply Hsat.
    specialize (H c Hc). congruence.
  - intros H c Hc. destruct (Hcl c Hc) as (b' & Hb & Hsat).
    rewrite Hb. f_equal. apply Hsat. apply H.
    apply list_elem_of_fmap. by exists c.
Qed.

(** Every variable of an extracted clause is the index of an INPUT gate
    of the circuit. *)
Lemma extracted_below circuit raw cl key :
  gate_to_cnf_clauses circuit = Return raw →
  cl ∈ raw → key ∈ cl.1 ++ cl.2 → input_below circuit key.
Proof.
  intros (Ht & Hcls & ->)%gate_to_cnf_clauses_Return
         (c & -> & Hc)%list_elem_of_fmap Hkey.
  destruct (Hcls c Hc) as [_ Hok]. rewrite Forall_forall in Hok.
  apply input_below_step with c; [done|].
  unfold clause_of in Hkey. simpl in Hkey.
  apply elem_of_app in Hkey as [Hk|Hk];
    apply list_elem_of_In, in_flat_map in Hk as (l & Hl & Hk);
    apply list_elem_of_In in Hl; apply input_below_step with l; try done;
    destruct (decide (gate_type l = "INPUT"%string)) as [Hi|Hi];
    try (by apply elem_of_nil in Hk; apply list_elem_of_In in Hk).
  - apply list_elem_of_In, list_elem_of_singleton in Hk as ->.
    exists l. split; [constructor|done].
  - by apply list_elem_of_In, elem_of_nil in Hk.
  - by apply list_elem_of_In, elem_of_nil in Hk.
  - destruct (Hok l Hl) as [?|(_ & operand & others & Hin & Hop)]; [done|].
    rewrite Hin in Hk.
    apply list_elem_of_In, list_elem_of_singleton in Hk as ->.
    apply input_below_step with operand; [rewrite Hin; left|].
    exists operand. split; [constructor|done].
Qed.

Lemma raw_of_satisfied (m : gmap Z bool) (D : gmap (option Z) bool) cl :
  (∀ var b, m !! var = Some b → D !! Some var = Some b) →
  clause_satisfied m cl → raw_clause_satisfied D (raw_of cl).
Proof.
  intros Hext [(v & Hv & Hm)|(v & Hv & Hm)]; [left|right];
    exists (Some v); (split; [by apply list_elem_of_fmap_2|by apply Hext]).
Qed.

Lemma solution_evaluates (circuit : Gate) (cls : list clause)
    (m : gmap Z bool) (D : gmap (option Z) bool) :
  gate_to_cnf_clauses circuit = Return (raw_of <$> cls) →
  satisfy_cnf cls = Return (Some m) →
  (∀ var b, m !! var = Some b → D !! Some var = Some b) →
  (∀ key, key ∈ collect_circuit_variables circuit → is_Some (D !! key)) →
  evaluate circuit D = Returns true.
Proof.
  intros Hex Hsat Hext Hdom.
  destruct (evaluate_extracted_aux circuit _ D Hex) as (b & -> & Hiff).
  { intros cl key Hcl Hkey. apply Hdom, elem_of_collect_circuit_variables.
    by apply (extracted_below circuit _ cl key Hex). }
  f_equal. apply Hiff. intros raw (cl & -> & Hcl)%list_elem_of_fmap.
  apply (raw_of_satisfied m); [done|].
  apply satisfy_cnf_satisfies in Hsat. rewrite Forall_forall in Hsat. auto.
Qed.

(** X1. A KeyError of [evaluate] names a variable that
    [collect_circuit_variables] collects and that the dict lacks: with
    every collected variable in the dict, [evaluate] raises no KeyError. *)
Theorem evaluate_KeyError (g : Gate) (input_values : gmap (option Z) bool)
    (key : option Z) :
  evaluate g input_values = Raises (KeyError key) →
  key ∈ collect_circuit_variables g ∧ input_values !! key = None.
Proof.
  intros [Hb Hl]%evaluate_KeyError_below. split; [|done].
  by apply elem_of_collect_circuit_variables.
Qed.

Lemma evaluate_KeyError_witness :
  Some 2 ∈ collect_circuit_variables
    (mkGate "AND" [mkGate "INPUT" [] None (Some 1);
                   mkGate "INPUT" [] None (Some 2)] None None) ∧
  ({[Some 1 := true]} : gmap (option Z) bool) !! Some 2 = None.
Proof.
  apply (evaluate_KeyError
           (mkGate "AND" [mkGate "INPUT" [] None (Some 1);
                          mkGate "INPUT" [] None (Some 2)] None None)
           {[Some 1 := true]}).
  vm_compute. reflexivity.
Defined.

(** X2. [collect_circuit_variables] returns exactly the indices of the
    INPUT gates at or below the circuit, at any depth and under any kind of
    gate. *)
Theorem collect_circuit_variables_spec (circuit : Gate) (key : option Z) :
  key ∈ collect_circuit_variables circuit ↔
  ∃ d, subgate d circuit ∧ gate_type d = "INPUT"%string ∧ index d = key.
Proof. apply elem_of_collect_circuit_variables. Qed.

(** X3. Every variable of a clause that [gate_to_cnf_clauses] returns is
    among the variables [collect_circuit_variables] collects from the same
    circuit. *)
Theorem collect_covers_extracted (circuit : Gate) (raw : list raw_clause)
    (cl : raw_clause) (key : option Z) :
  gate_to_cnf_clauses circuit = Return raw →
  cl ∈ raw → key ∈ cl.1 ++ cl.2 →
  key ∈ collect_circuit_variables circuit.
Proof.
  intros Hex Hcl Hkey. apply elem_of_collect_circuit_variables.
  by apply (extracted_below circuit raw cl key).
Qed.

Lemma collect_covers_extracted_witness :
  Some 2 ∈ collect_circuit_variables
    (mkGate "AND"
       [mkGate "OR" [mkGate "INPUT" [] None (Some 1);
                     mkGate "NOT" [mkGate "INPUT" [] None (Some 2)] None None]
               None None] None None).
Proof.
  refine (collect_covers_extracted _ [([Some 1], [Some 2])]
            ([Some 1], [Some 2]) (Some 2) _ _ _).
  - reflexivity.
  - left.
  - right. left.
Defined.

(** X4. On a circuit that [gate_to_cnf_clauses] accepts, and a dict that
    holds every variable of the extracted clauses, [evaluate] returns a
    boolean, and it returns True exactly when every extracted clause has a
    positive variable the dict sends to True or a negative variable it
    sends to False. *)
Theorem evaluate_extracted (circuit : Gate) (raw : list raw_clause)
    (input_values : gmap (option Z) bool) :
  gate_to_cnf_clauses circuit = Return raw →
  (∀ cl key, cl ∈ raw → key ∈ cl.1 ++ cl.2 →
             is_Some (input_values !! key)) →
  ∃ b, evaluate circuit input_values = Returns b ∧
       (b = true ↔
        ∀ cl, cl ∈ raw →
          (∃ var, var ∈ cl.1 ∧ input_values !! var = Some true) ∨
          (∃ var, var ∈ cl.2 ∧ input_values !! var = Some false)).
Proof. apply evaluate_extracted_aux. Qed.

Lemma evaluate_extracted_witness :
  ∃ b, evaluate
         (mkGate "AND"
            [mkGate "OR" [mkGate "INPUT" [] None (Some 1);
                          mkGate "NOT" [mkGate "INPUT" [] None (Some 2)]
                                 None None] None None] None None)
         {[Some 1 := false; Some 2 := false]} = Returns b ∧
       (b = true ↔
        ∀ cl, cl ∈ [([Some 1], [Some 2])] →
          (∃ var, var ∈ cl.1 ∧
             ({[Some 1 := false; Some 2 := false]} : gmap (option Z) bool)
               !! var = Some true) ∨
          (∃ var, var ∈ cl.2 ∧
             ({[Some 1 := false; Some 2 := false]} : gmap (option Z) bool)
               !! var = Some false)).
Proof.
  apply evaluate_extracted; [reflexivity|].
  intros cl key Hcl Hkey. apply list_elem_of_singleton in Hcl as ->.
  simpl in Hkey. apply elem_of_cons in Hkey as [->|Hkey];
    [|apply list_elem_of_singleton in Hkey as ->]; vm_compute; by eexists.
Defined.

(** X5. What [satisfy_cnf] returns for the clauses of a circuit is a
    partial solution of the circuit: every dict that keeps the returned
    entries and gives some value to the remaining variables of the circuit
    makes [evaluate] return True. *)
Theorem solution_verifies (circuit : Gate) (cls : list clause)
    (m : gmap Z bool) (D : gmap (option Z) bool) :
  gate_to_cnf_clauses circuit = Return (raw_of <$> cls) →
  satisfy_cnf cls = Return (Some m) →
  (∀ var b, m !! var = Some b → D !! Some var = Some b) →
  (∀ key, key ∈ collect_circuit_variables circuit → is_Some (D !! key)) →
  evaluate circuit D = Returns true.
Proof. apply solution_evaluates. Qed.

(** X6. The verification of [generate_and_solve]: when the variables of
    the circuit are the integers of [all_variables], the mapping returned
    by [satisfy_cnf], completed with True for the variables it lacks,
    makes the circuit evaluate to True. *)
Theorem completed_solution_verifies (circuit : Gate) (cls : list clause)
    (m : gmap Z bool) (all_variables : list Z) :
  gate_to_cnf_clauses circuit = Return (raw_of <$> cls) →
  satisfy_cnf cls = Return (Some m) →
  (∀ key, key ∈ collect_circuit_variables circuit →
          ∃ var, key = Some var ∧ var ∈ all_variables) →
  evaluate circuit (kmap Some (add_missing all_variables m)) = Returns true.
Proof.
  intros Hex Hsat Hvars. apply (solution_evaluates circuit cls m); try done.
  - intros var b Hm. rewrite lookup_kmap by apply _.
    by rewrite add_missing_lookup, Hm.
  - intros key (var & -> & Hin)%Hvars. rewrite lookup_kmap by apply _.
    rewrite add_missing_lookup. destruct (m !! var); [done|].
    by rewrite decide_True.
Qed.

Lemma one_clause_circuit_variables key :
  key ∈ collect_circuit_variables one_clause_circuit →
  key = Some 1 ∨ key = Some 2.
Proof.
  assert (E : collect_circuit_variables one_clause_circuit
              = {[Some 1; Some 2]}) by (vm_compute; reflexivity).
  rewrite E. intros [Hk|Hk]%elem_of_union;
    apply elem_of_singleton in Hk; auto.
Qed.

Lemma solution_verifies_witness :
  evaluate one_clause_circuit {[Some 1 := true; Some 2 := false]}
    = Returns true.
Proof.
  refine (solution_verifies one_clause_circuit [([1; 2], [])] {[1 := true]}
            {[Some 1 := true; Some 2 := false]} _ _ _ _).
  - reflexivity.
  - vm_compute. reflexivity.
  - intros var b Hm. apply lookup_singleton_Some in Hm as [<- <-].
    reflexivity.
  - intros key [->| ->]%one_clause_circuit_variables; by eexists.
Defined.

Lemma completed_solution_verifies_witness :
  evaluate one_clause_circuit (kmap Some (add_missing [1; 2] {[1 := true]}))
    = Returns true.
Proof.
  refine (completed_solution_verifies one_clause_circuit [([1; 2], [])]
            {[1 := true]} [1; 2] _ _ _).
  - reflexivity.
  - vm_compute. reflexivity.
  - intros key [->| ->]%one_clause_circuit_variables.
    + exists 1. split; [done|left].
    + exists 2. split; [done|right; left].
Defined.

(** ** The search as a decision procedure *)

Lemma clause_satisfied_models m cl :
  clause_satisfied m cl → models (valuation_of m) cl.
Proof.
  intros [(v & Hv & Hm)|(v & Hv & Hm)]; [left|right]; exists v;
    (split; [done|]); unfold valuation_of; by rewrite Hm.
Qed.

Lemma satisfy_cnf_None_unsat cs :
  satisfy_cnf cs = Return None ↔ ¬ ∃ σ, Forall (models σ) cs.
Proof.
  split.
  - intros Hn [σ Hσ]. destruct (satisfy_cnf_complete cs σ Hσ) as [m Hm].
    congruence.
  - intros Hno. destruct (satisfy_cnf_returns cs) as [[m|] Hr]; [|done].
    destruct Hno. exists (valuation_of m).
    apply satisfy_cnf_satisfies in Hr.
    eapply Forall_impl; [exact Hr|]. apply clause_satisfied_models.
Qed.

(** X7. [satisfy_cnf] decides satisfiability: it returns None exactly when
    no assignment of booleans to the variables makes a literal of every
    clause true. *)
Theorem satisfy_cnf_decides (cs : list clause) :
  satisfy_cnf cs = Return None ↔
  ¬ ∃ σ : Z → bool,
      ∀ cl, cl ∈ cs →
        (∃ var, var ∈ cl.1 ∧ σ var = true) ∨
        (∃ var, var ∈ cl.2 ∧ σ var = false).
Proof.
  rewrite satisfy_cnf_None_unsat. split; intros Hno [σ Hσ]; destruct Hno;
    exists σ; [by apply Forall_forall|by rewrite Forall_forall in Hσ].
Qed.

(** X8. Whether [satisfy_cnf] returns None does not depend on the order of
    the clauses nor on repeated clauses: two lists with the same clauses
    are both answered None or both answered with a mapping. *)
Theorem satisfy_cnf_order (cs cs' : list clause) :
  (∀ cl, cl ∈ cs ↔ cl ∈ cs') →
  (satisfy_cnf cs = Return None ↔ satisfy_cnf cs' = Return None).
Proof.
  intros Hsame. rewrite !satisfy_cnf_None_unsat.
  split; intros Hno [σ Hσ]; destruct Hno; exists σ;
    rewrite Forall_forall in *; intros cl Hcl; apply Hσ; by apply Hsame.
Qed.

Lemma satisfy_cnf_order_witness :
  satisfy_cnf [([1], []); ([], [1]); ([2], [])] = Return None ↔
  satisfy_cnf [([2], []); ([], [1]); ([1], []); ([2], [])] = Return None.
Proof.
  apply satisfy_cnf_order. intros cl.
  rewrite !elem_of_cons, !elem_of_nil. tauto.
Defined.

(** ** Growth of the frontier *)

Lemma try_loop_length c excluded forced lits acc :
  (length (foldl (try_literal c excluded forced) acc lits)
   ≤ length acc + length lits)%nat.
Proof.
  revert acc. induction lits as [|var rest IH]; intros acc; simpl; [lia|].
  etransitivity; [apply IH|]. unfold try_literal.
  destruct (decide (get_state c var ≠ excluded)); [|lia].
  destruct (set_state (copy c) var forced) as [[] d]; [|lia].
  rewrite length_app. simpl. lia.
Qed.

Lemma propagate_clause_length cl c :
  (length (propagate_clause cl c)
   ≤ Nat.max 1 (length cl.1 + length cl.2))%nat.
Proof.
  destruct cl as [pos_lits neg_lits]. unfold propagate_clause. simpl.
  destruct (some_state (copy c) MUST_TRUE pos_lits); [simpl; lia|].
  destruct (some_state (copy c) MUST_FALSE neg_lits); [simpl; lia|].
  etransitivity; [apply try_loop_length|].
  pose proof (try_loop_length (copy c) MUST_FALSE MUST_TRUE pos_lits []).
  simpl in *. lia.
Qed.

(** X9. One clause multiplies the frontier by at most its number of
    literals (by at most one when it has none): [propagate_clause] returns
    at most that many constraint sets, and the frontier after the clause
    has at most that many times the members it had. *)
Theorem frontier_growth (cl : clause) (c : ConstraintSet)
    (F : list ConstraintSet) :
  (length (propagate_clause cl c)
   ≤ Nat.max 1 (length cl.1 + length cl.2))%nat ∧
  (length (extend_frontier cl F)
   ≤ length F * Nat.max 1 (length cl.1 + length cl.2))%nat.
Proof.
  split; [apply propagate_clause_length|].
  rewrite extend_frontier_concat.
  induction F as [|d F IH]; simpl; [lia|].
  rewrite length_app. pose proof (propagate_clause_length cl d). lia.
Qed.

(** ** [to_assignment] *)

Lemma to_assignment_loop_None items acc var :
  (var, CONFLICT) ∈ items → to_assignment_loop items acc = None.
Proof.
  revert acc. induction items as [|[v s] rest IH]; intros acc Hin.
  { by apply elem_of_nil in Hin. }
  apply elem_of_cons in Hin as [[= <- <-]|Hin]; [done|].
  simpl. destruct s; auto.
Qed.

(** X10. [to_assignment] returns None exactly when some variable is in
    state CONFLICT; otherwise it returns a mapping over the same
    variables that sends MUST_FALSE to False and every other state,
    UNKNOWN included, to True. *)
Theorem to_assignment_spec (c : ConstraintSet) :
  (to_assignment c = None ↔ ∃ var, var_states c !! var = Some CONFLICT) ∧
  (∀ m, to_assignment c = Some m →
        dom m = dom (var_states c) ∧
        ∀ var s, var_states c !! var = Some s →
                 m !! var = Some (if decide (s = MUST_FALSE)
                                  then false else true)).
Proof.
  assert (Hdec : (∃ var, var_states c !! var = Some CONFLICT) ∨
                 conflict_free c).
  { destruct (decide (map_Exists (λ _ s, s = CONFLICT) (var_states c)))
      as [(var & s & Hl & ->)|Hno]; [left; by exists var|].
    right. intros var Hl. destruct Hno. by exists var, CONFLICT. }
  assert (Hnone : (∃ var, var_states c !! var = Some CONFLICT) →
                  to_assignment c = None).
  { intros [var Hl]. unfold to_assignment.
    apply (to_assignment_loop_None _ _ var). unfold sorted_items.
    rewrite merge_sort_Permutation. by apply elem_of_map_to_list. }
  split.
  - split; [|done]. intros Hn. destruct Hdec as [?|Hcf]; [done|].
    rewrite to_assignment_conflict_free in Hn by done. done.
  - intros m Hm. destruct Hdec as [Hc|Hcf].
    { rewrite Hnone in Hm by done. done. }
    rewrite to_assignment_conflict_free in Hm by done.
    injection Hm as <-. split; [apply dom_fmap_L|].
    intros var s Hs. rewrite lookup_fmap, Hs. simpl.
    by destruct s.
Qed.

Lemma to_assignment_spec_witness :
  dom ({[1 := true; 2 := false]} : gmap Z bool)
    = dom (var_states (mkConstraintSet {[1 := UNKNOWN; 2 := MUST_FALSE]})) ∧
  ∀ var s,
    var_states (mkConstraintSet {[1 := UNKNOWN; 2 := MUST_FALSE]}) !! var
      = Some s →
    ({[1 := true; 2 := false]} : gmap Z bool) !! var
      = Some (if decide (s = MUST_FALSE) then false else true).
Proof.
  apply (proj2 (to_assignment_spec
                  (mkConstraintSet {[1 := UNKNOWN; 2 := MUST_FALSE]}))).
  vm_compute. reflexivity.
Defined.

(** ** Where the returned values come from *)

Lemma backed_mono seen seen' c :
  (∀ cl, cl ∈ seen → cl ∈ seen') → backed seen c → backed seen' c.
Proof.
  intros Hsub Hb var s Hs.
  destruct (Hb var s Hs) as [[-> (cl & Hcl & Hv)]|[-> (cl & Hcl & Hv)]];
    [left|right]; (split; [done|]); exists cl; auto.
Qed.

Lemma propagate_clause_backed seen cl c d :
  backed seen c → d ∈ propagate_clause cl c → backed (seen ++ [cl]) d.
Proof.
  intros Hb Hd.
  assert (Hold : backed (seen ++ [cl]) c).
  { apply (backed_mono seen); [|done]. intros x Hx.
    apply elem_of_app. by left. }
  assert (Hcl : cl ∈ seen ++ [cl]).
  { apply elem_of_app. right. left. }
  destruct (propagate_clause_cases _ _ _ Hd)
    as [[_ ->]|[(v & Hv & _ & Hst)|(v & Hv & _ & Hst)]]; [done| |];
    intros var s; rewrite Hst;
    (destruct (decide (v = var)) as [->|Hne];
     [rewrite lookup_insert_eq; intros [= <-]
     |rewrite lookup_insert_ne by done; apply Hold]).
  - left. split; [done|]. by exists cl.
  - right. split; [done|]. by exists cl.
Qed.

Lemma process_clauses_backed seen cs F (m : gmap Z bool) :
  Forall conflict_free F → Forall (backed seen) F →
  (process_clauses cs F).2 = Return (Some m) →
  ∀ (var : Z) (b : bool), m !! var = Some b →
    ∃ cl : clause, cl ∈ seen ++ cs ∧ var ∈ (if b then cl.1 else cl.2).
Proof.
  revert seen F. induction cs as [|cl rest IH]; intros seen F Hcf Hseen.
  - simpl. destruct F as [|first F']; [done|].
    apply Forall_cons in Hcf as [Hcf _].
    apply Forall_cons in Hseen as [Hseen _].
    rewrite to_assignment_conflict_free by done. intros [= <-] var b.
    rewrite app_nil_r, lookup_fmap.
    destruct (var_states first !! var) as [s|] eqn:Hs; [|done].
    simpl. intros [= <-].
    by destruct (Hseen var s Hs) as [[-> ?]|[-> ?]].
  - destruct (decide (extend_frontier cl F = [])) as [E|E].
    + by rewrite process_clauses_halt.
    + rewrite process_clauses_continue by done. simpl. intros H.
      replace (seen ++ cl :: rest) with ((seen ++ [cl]) ++ rest)
        by (by rewrite <- app_assoc).
      apply (IH _ (extend_frontier cl F)); [| |done].
      * by apply extend_frontier_conflict_free.
      * rewrite Forall_forall in Hseen. apply Forall_forall. intros d Hd.
        apply elem_of_extend_frontier in Hd as (c & Hc & Hd).
        apply (propagate_clause_backed seen cl c); auto.
Qed.

(** X11. A mapping returned by [satisfy_cnf] sends a variable to True only
    if the variable is a positive literal of some clause, and to False
    only if it is a negative literal of some clause: no value comes from
    the default for unknown states. *)
Theorem solution_polarity (cs : list clause) (m : gmap Z bool) (var : Z) :
  satisfy_cnf cs = Return (Some m) →
  (m !! var = Some true → ∃ cl, cl ∈ cs ∧ var ∈ cl.1) ∧
  (m !! var = Some false → ∃ cl, cl ∈ cs ∧ var ∈ cl.2).
Proof.
  intros H.
  assert (Hb : ∀ b : bool, m !! var = Some b →
            ∃ cl : clause, cl ∈ cs ∧ var ∈ (if b then cl.1 else cl.2)).
  { destruct cs as [|cl rest].
    - injection H as <-. intros b Hl. by rewrite lookup_empty in Hl.
    - rewrite satisfy_cnf_cons in H. intros b Hl.
      apply (process_clauses_backed [] (cl :: rest) [new_ConstraintSet] m);
        [apply initial_frontier_conflict_free| |done|done].
      constructor; [|constructor]. intros v s Hs. simpl in Hs.
      by rewrite lookup_empty in Hs. }
  split; [apply (Hb true)|apply (Hb false)].
Qed.

Lemma solution_polarity_witness :
  (({[1 := true; 2 := false]} : gmap Z bool) !! 2 = Some true →
   ∃ cl, cl ∈ [([1; 2], []); ([], [1; 2]) : clause] ∧ 2 ∈ cl.1) ∧
  (({[1 := true; 2 := false]} : gmap Z bool) !! 2 = Some false →
   ∃ cl, cl ∈ [([1; 2], []); ([], [1; 2]) : clause] ∧ 2 ∈ cl.2).
Proof.
  apply (solution_polarity [([1; 2], []); ([], [1; 2])]).
  vm_compute. reflexivity.
Defined.

(** ** Display of pigeonhole variables and clauses *)

Lemma var_to_ph_name holes var :
  holes ≠ 0 →
  var_to_ph holes var =
    Returns (ph_name ((var - 1) / holes + 1) ((var - 1) `mod` holes + 1)).
Proof. intros Hh. unfold var_to_ph. by rewrite decide_False. Qed.

Lemma var_to_ph_generated holes p h :
  1 ≤ h ≤ holes →
  var_to_ph holes ((p - 1) * holes + h) = Returns (ph_name p h).
Proof.
  intros Hh. rewrite var_to_ph_name by lia.
  replace (((p - 1) * holes + h - 1) / holes) with (p - 1).
  2:{ apply (Z.div_unique _ _ _ (h - 1)); lia. }
  replace (((p - 1) * holes + h - 1) `mod` holes) with (h - 1).
  2:{ apply (Z.mod_unique _ _ (p - 1)); lia. }
  do 2 f_equal; lia.
Qed.

(** X12. The display decodes what the generator encodes: for a hole [h]
    between 1 and [holes], the variable number [(p-1)*holes + h] used by
    [generate_pigeonhole] is shown by [var_to_ph] with pigeon [p] and hole
    [h]. *)
Theorem var_to_ph_encode (holes p h : Z) :
  1 ≤ h ≤ holes →
  var_to_ph holes ((p - 1) * holes + h) =
    Returns ("x₍" +:+ pretty p +:+ "," +:+ pretty h +:+ "₎").
Proof. apply var_to_ph_generated. Qed.

Lemma var_to_ph_encode_witness :
  var_to_ph 3 ((2 - 1) * 3 + 2) =
    Returns ("x₍" +:+ pretty 2 +:+ "," +:+ pretty 2 +:+ "₎").
Proof. apply (var_to_ph_encode 3 2 2). lia. Defined.

(** X13. With at least one hole, every variable number is shown with the
    one pigeon [p] and hole [h] between 1 and [holes] that encode it. *)
Theorem var_to_ph_decode (holes var : Z) :
  1 ≤ holes →
  ∃ p h, 1 ≤ h ≤ holes ∧ var = (p - 1) * holes + h ∧
         var_to_ph holes var =
           Returns ("x₍" +:+ pretty p +:+ "," +:+ pretty h +:+ "₎") ∧
         ∀ p' h', 1 ≤ h' ≤ holes → var = (p' - 1) * holes + h' →
                  p' = p ∧ h' = h.
Proof.
  intros Hh.
  exists ((var - 1) / holes + 1), ((var - 1) `mod` holes + 1).
  pose proof (Z.mod_pos_bound (var - 1) holes ltac:(lia)) as Hm.
  pose proof (Z.div_mod (var - 1) holes ltac:(lia)) as Hd.
  split; [lia|]. split; [lia|]. split; [by apply var_to_ph_name; lia|].
  intros p' h' Hh' Heq. apply (pigeon_hole_unique holes); lia.
Qed.

Lemma var_to_ph_decode_witness :
  ∃ p h, 1 ≤ h ≤ 3 ∧ 5 = (p - 1) * 3 + h ∧
         var_to_ph 3 5 =
           Returns ("x₍" +:+ pretty p +:+ "," +:+ pretty h +:+ "₎") ∧
         ∀ p' h', 1 ≤ h' ≤ 3 → 5 = (p' - 1) * 3 + h' → p' = p ∧ h' = h.
Proof. apply (var_to_ph_decode 3 5). lia. Defined.

Lemma ph_terms_Returns holes prefix vars terms :
  holes ≠ 0 →
  ph_terms holes prefix vars terms =
    Returns (terms ++
             map (λ var, prefix +:+
                    ph_name ((var - 1) / holes + 1)
                            ((var - 1) `mod` holes + 1)) vars).
Proof.
  intros Hh. revert terms.
  induction vars as [|var rest IH]; intros terms; simpl.
  - by rewrite app_nil_r.
  - rewrite var_to_ph_name by done. by rewrite IH, <- app_assoc.
Qed.

Lemma ph_terms_zero prefix vars terms :
  vars ≠ [] → ph_terms 0 prefix vars terms = Raises ZeroDivisionError.
Proof. by destruct vars. Qed.

(** X14. [format_pigeonhole_clause] raises exactly when [holes] is 0 and
    the clause has a literal, and what it raises is ZeroDivisionError; in
    every other case it returns a string. *)
Theorem format_pigeonhole_clause_error (cl : clause) (holes : Z) :
  (holes = 0 ∧ clause_vars cl ≠ [] →
   format_pigeonhole_clause cl holes = Raises ZeroDivisionError) ∧
  (holes ≠ 0 ∨ clause_vars cl = [] →
   ∃ s, format_pigeonhole_clause cl holes = Returns s).
Proof.
  destruct cl as [pos_lits neg_lits].
  unfold format_pigeonhole_clause, clause_vars. simpl. split.
  - intros [-> Hne]. destruct pos_lits as [|v pos_lits]; [|done].
    simpl in *. by rewrite ph_terms_zero.
  - intros [Hh|Hnil].
    + rewrite !ph_terms_Returns by done. by eexists.
    + apply app_eq_nil in Hnil as [-> ->]. by eexists.
Qed.

Lemma format_pigeonhole_clause_error_witness :
  format_pigeonhole_clause ([], [1; 2]) 0 = Raises ZeroDivisionError.
Proof.
  apply (proj1 (format_pigeonhole_clause_error ([], [1; 2]) 0)).
  split; [reflexivity|discriminate].
Defined.

(** X15. A clause that [generate_pigeonhole] builds for hole [h] and the
    pigeons [p1], [p2] is displayed as the disjunction of the two negated
    names of [p1] and [p2] in hole [h]. *)
Theorem format_hole_clause (holes h p1 p2 : Z) :
  1 ≤ h ≤ holes →
  format_pigeonhole_clause
    ([], [(p1 - 1) * holes + h; (p2 - 1) * holes + h]) holes =
  Returns ("(" +:+ (("¬" +:+ ph_name p1 h) +:+ " ∨ " +:+
                    ("¬" +:+ ph_name p2 h)) +:+ ")").
Proof.
  intros Hh. unfold format_pigeonhole_clause. cbn [ph_terms app].
  rewrite !var_to_ph_generated by done. reflexivity.
Qed.

Lemma format_hole_clause_witness :
  format_pigeonhole_clause ([], [(1 - 1) * 2 + 2; (3 - 1) * 2 + 2]) 2 =
  Returns ("(" +:+ (("¬" +:+ ph_name 1 2) +:+ " ∨ " +:+
                    ("¬" +:+ ph_name 3 2)) +:+ ")").
Proof. apply (format_hole_clause 2 2 1 3). lia. Defined.

Example format_hole_clause_text :
  format_pigeonhole_clause ([], [2; 6]) 2 = Returns "(¬x₍1,2₎ ∨ ¬x₍3,2₎)".
Proof. vm_compute. reflexivity. Qed.

(** ** Size of the pigeonhole formulas *)

Lemma length_concat_singletons {A B} (g : A → B) (l : list A) :
  length (concat (map (λ x, [g x]) l)) = length l.
Proof. induction l as [|x l IH]; simpl; [done|]. by rewrite IH. Qed.

Lemma length_concat_same {A B} (f : A → list B) (l : list A) (k : nat) :
  (∀ x, length (f x) = k) →
  length (concat (map f l)) = (length l * k)%nat.
Proof.
  intros Hf. induction l as [|x l IH]; simpl; [done|].
  by rewrite length_app, IH, Hf.
Qed.

Lemma generate_pigeonhole_concat pigeons holes :
  generate_pigeonhole pigeons holes =
    concat (map (λ p, [pigeon_clause holes p]) (range 1 (pigeons + 1))) ++
    concat (map (one_hole_clauses pigeons holes) (range 1 (holes + 1))).
Proof.
  unfold generate_pigeonhole.
  rewrite (append_loop_concat _ (one_hole_clauses pigeons holes)).
  2:{ intros acc h. apply append_loop_concat. intros acc1 p1.
      by apply append_loop_concat. }
  by rewrite (append_loop_concat _ (λ p, [pigeon_clause holes p])).
Qed.

Lemma pairs_count pigeons holes h (n : nat) :
  Z.of_nat n ≤ pigeons →
  2 * Z.of_nat
        (length (concat (map (λ p1,
           concat (map (λ p2, [hole_clause holes h p1 p2])
                       (range (p1 + 1) (pigeons + 1))))
           (seqZ 1 (Z.of_nat n))))) =
  Z.of_nat n * (2 * pigeons - Z.of_nat n - 1).
Proof.
  induction n as [|n IH]; intros Hn; [simpl; lia|].
  rewrite seqZ_S, map_app, concat_app, length_app. simpl.
  rewrite app_nil_r, length_concat_singletons.
  unfold range at 2. rewrite length_seqZ. lia.
Qed.

Lemma one_hole_clauses_length pigeons holes h :
  0 ≤ pigeons →
  2 * Z.of_nat (length (one_hole_clauses pigeons holes h)) =
  pigeons * (pigeons - 1).
Proof.
  intros Hp. unfold one_hole_clauses, range at 2.
  destruct (decide (pigeons = 0)) as [->|Hne]; [done|].
  replace (pigeons - 1) with (Z.of_nat (Z.to_nat (pigeons - 1))) at 1 by lia.
  rewrite pairs_count by lia. nia.
Qed.

(** X16. For non-negative arguments [generate_pigeonhole] returns
    [pigeons] clauses of the first kind and, for every hole, one clause per
    pair of pigeons: [pigeons + holes * (pigeons * (pigeons - 1) / 2)]
    clauses in all. *)
Theorem generate_pigeonhole_length (pigeons holes : Z) :
  0 ≤ pigeons → 0 ≤ holes →
  Z.of_nat (length (generate_pigeonhole pigeons holes)) =
    pigeons + holes * (pigeons * (pigeons - 1) / 2).
Proof.
  intros Hp Hh. rewrite generate_pigeonhole_concat, length_app.
  rewrite length_concat_singletons.
  pose proof (one_hole_clauses_length pigeons holes 0 Hp) as Hk.
  rewrite (length_concat_same _ _
             (length (one_hole_clauses pigeons holes 0))).
  2:{ intros h. apply Nat2Z.inj.
      pose proof (one_hole_clauses_length pigeons holes h Hp). lia. }
  unfold range. rewrite !length_seqZ.
  replace (pigeons * (pigeons - 1) / 2)
    with (Z.of_nat (length (one_hole_clauses pigeons holes 0))).
  2:{ apply (Z.div_unique _ _ _ 0); lia. }
  lia.
Qed.

Lemma generate_pigeonhole_length_witness :
  Z.of_nat (length (generate_pigeonhole 4 3)) = 4 + 3 * (4 * (4 - 1) / 2).
Proof. apply (generate_pigeonhole_length 4 3); lia. Defined.

(** X17. Every variable of [generate_pigeonhole pigeons holes] lies
    between 1 and [pigeons * holes], the number of variables the
    demonstration prints. *)
Theorem generate_pigeonhole_variables (pigeons holes : Z) (cl : clause)
    (var : Z) :
  cl ∈ generate_pigeonhole pigeons holes → var ∈ cl.1 ++ cl.2 →
  1 ≤ var ≤ pigeons * holes.
Proof.
  intros Hcl Hvar.
  apply elem_of_generate_pigeonhole in Hcl
    as [(p & Hp & ->)|(h & p1 & p2 & Hh & Hp1 & Hp2 & ->)]; simpl in Hvar.
  - rewrite app_nil_r in Hvar.
    apply list_elem_of_fmap in Hvar as (h & -> & Hh%elem_of_range). nia.
  - apply elem_of_cons in Hvar as [->|Hvar]; [nia|].
    apply list_elem_of_singleton in Hvar as ->. nia.
Qed.

Lemma generate_pigeonhole_variables_witness : 1 ≤ 6 ≤ 3 * 2.
Proof.
  refine (generate_pigeonhole_variables 3 2 ([5; 6], []) 6 _ _).
  - vm_compute. right. right. left.
  - right. left.
Defined.

(** ** The completion step *)

(** X18. The completion loop of [generate_and_solve] does not depend on
    the order in which the set [all_variables] is enumerated: two
    enumerations of the same variables give the same mapping, whose keys
    are the keys of the result together with the enumerated variables. *)
Theorem add_missing_order (l1 l2 : list Z) (m : gmap Z bool) :
  (∀ var, var ∈ l1 ↔ var ∈ l2) →
  add_missing l1 m = add_missing l2 m ∧
  dom (add_missing l1 m) = dom m ∪ list_to_set l1.
Proof.
  intros Hsame. split.
  - apply map_eq. intros var. rewrite !add_missing_lookup.
    destruct (m !! var); [done|]. apply decide_ext, Hsame.
  - apply set_eq. intros var.
    rewrite elem_of_union, !elem_of_dom, elem_of_list_to_set,
      add_missing_lookup.
    destruct (m !! var) as [b|].
    + split; [by left; eexists|by eexists].
    + destruct (decide (var ∈ l1)) as [Hin|Hout].
      * split; [by right|by eexists].
      * split; [by intros [? ?]|]. intros [[? ?]|?]; done.
Qed.

Lemma add_missing_order_witness :
  add_missing [1; 2; 3] {[2 := false]} = add_missing [3; 2; 1; 3] {[2 := false]} ∧
  dom (add_missing [1; 2; 3] {[2 := false]})
    = dom ({[2 := false]} : gmap Z bool) ∪ list_to_set [1; 2; 3].
Proof.
  apply add_missing_order. intros var.
  rewrite !elem_of_cons, !elem_of_nil. tauto.
Defined.

(** ** The extraction on well-formed and malformed circuits *)

(** X19. [gate_to_cnf_clauses] raises an exception exactly on the circuits
    whose top gate is not an AND, or that have a child that is not an OR,
    or an OR child with a literal that is neither an INPUT gate nor a NOT
    gate whose first input is an INPUT gate; the exception is a ValueError
    unless a literal is a NOT gate without inputs. *)
Theorem extraction_rejects_malformed (circuit : Gate) :
  ((∃ e, gate_to_cnf_clauses circuit = Raise e) ↔ malformed circuit) ∧
  (gate_to_cnf_clauses circuit = Raise IndexError →
   ∃ cl lit, cl ∈ inputs circuit ∧ lit ∈ inputs cl ∧
             gate_type lit = "NOT"%string ∧ inputs lit = []).
Proof.
  destruct (gate_to_cnf_clauses_cases circuit)
    as [[Hok Hr]|[Hbad [[msg Hr]|[Hr Hop]]]]; rewrite Hr.
  - split; [|done]. split; [by intros [e ?]|done].
  - split; [|done]. split; [done|]. by eexists.
  - split; [|done]. split; [done|]. by eexists.
Qed.

(** X20. On every other circuit [gate_to_cnf_clauses] returns one pair per
    child of the top gate, in the order of the children: the indices of
    the child's INPUT literals, and the indices of the operands of its NOT
    literals, each in the order of the literals. *)
Theorem extraction_returns_clauses (circuit : Gate) :
  ¬ malformed circuit →
  ∃ raw, gate_to_cnf_clauses circuit = Return raw ∧
         length raw = length (inputs circuit) ∧
         ∀ i cl, inputs circuit !! i = Some cl →
                 raw !! i = Some (positive_of (inputs cl),
                                  negative_of (inputs cl)).
Proof.
  intros Hok. exists (map clause_of (inputs circuit)).
  destruct (gate_to_cnf_clauses_cases circuit) as [[_ Hr]|[Hbad _]]; [|done].
  split; [done|]. split; [apply length_map|].
  intros i cl Hi. change (map clause_of (inputs circuit))
    with (clause_of <$> inputs circuit).
  by rewrite list_lookup_fmap, Hi.
Qed.

Lemma extraction_returns_clauses_witness :
  ∃ raw, gate_to_cnf_clauses one_clause_circuit = Return raw ∧
         length raw = length (inputs one_clause_circuit) ∧
         ∀ i cl, inputs one_clause_circuit !! i = Some cl →
                 raw !! i = Some (positive_of (inputs cl),
                                  negative_of (inputs cl)).
Proof.
  apply extraction_returns_clauses.
  rewrite <- gate_to_cnf_clauses_raises. intros [e He]. discriminate He.
Defined.

(** ** Truth tables *)

Lemma sorted_indices_Returns s ks :
  sorted_indices s = Returns ks → ks ≡ₚ elements s.
Proof.
  unfold sorted_indices. case_decide; [done|]. intros [= <-].
  apply merge_sort_Permutation.
Qed.

Lemma sorted_indices_elem_of s ks key :
  sorted_indices s = Returns ks → key ∈ ks ↔ key ∈ s.
Proof.
  intros Hp%sorted_indices_Returns. by rewrite Hp, elem_of_elements.
Qed.

Lemma sorted_indices_NoDup s ks : sorted_indices s = Returns ks → NoDup ks.
Proof.
  intros Hp%sorted_indices_Returns. rewrite Hp. apply NoDup_elements.
Qed.

Lemma sorted_indices_length s ks :
  sorted_indices s = Returns ks → length ks = size s.
Proof. intros Hp%sorted_indices_Returns. by rewrite Hp. Qed.

Lemma product_bools_length n : length (product_bools n) = (2 ^ n)%nat.
Proof.
  induction n as [|n IH]; [done|]. cbn [product_bools flat_map].
  rewrite !length_app, !length_map, IH. simpl. lia.
Qed.

Lemma elem_of_product_bools n vs :
  vs ∈ product_bools n ↔ length vs = n.
Proof.
  revert vs. induction n as [|n IH]; intros vs.
  - simpl. rewrite list_elem_of_singleton. by destruct vs.
  - cbn [product_bools flat_map]. rewrite app_nil_r, elem_of_app.
    rewrite !list_elem_of_fmap. split.
    + intros [(ws & -> & Hws)|(ws & -> & Hws)]; apply IH in Hws;
        simpl; by f_equal.
    + destruct vs as [|[] ws]; [done| |]; intros [= Hl]; [right|left];
        exists ws; by rewrite IH.
Qed.

Lemma product_bools_NoDup n : NoDup (product_bools n).
Proof.
  induction n as [|n IH]; [apply NoDup_singleton|].
  cbn [product_bools flat_map]. rewrite app_nil_r. apply NoDup_app.
  split; [|split].
  - apply NoDup_fmap_2; [|done]. by intros ?? [= ?].
  - intros vs (ws & -> & _)%list_elem_of_fmap (ws' & [=] & _)%list_elem_of_fmap.
  - apply NoDup_fmap_2; [|done]. by intros ?? [= ?].
Qed.

Lemma dict_loop_insert (l : list (option Z * bool)) (d : gmap (option Z) bool)
    key b :
  key ∉ l.*1 →
  foldl (λ d p, <[p.1 := p.2]> d) (<[key := b]> d) l =
  <[key := b]> (foldl (λ d p, <[p.1 := p.2]> d) d l).
Proof.
  revert d. induction l as [|[k v] l IH]; intros d Hk; [done|].
  simpl in *. apply not_elem_of_cons in Hk as [Hne Hk].
  rewrite <- IH by done. f_equal. by apply insert_insert_ne.
Qed.

Lemma dict_zip_cons key keys b values :
  key ∉ keys →
  dict_zip (key :: keys) (b :: values) = <[key := b]> (dict_zip keys values).
Proof.
  intros Hk. unfold dict_zip. simpl. apply dict_loop_insert.
  intros (p & -> & Hp)%list_elem_of_fmap. destruct p as [k v].
  by apply elem_of_zip_l in Hp.
Qed.

Lemma dict_zip_dom keys values :
  NoDup keys → length values = length keys →
  dom (dict_zip keys values) = list_to_set keys.
Proof.
  intros Hnd. revert values.
  induction Hnd as [|k ks Hk Hnd IH]; intros [|v vs] Hlen; try done.
  rewrite dict_zip_cons by done. simpl.
  rewrite dom_insert_L, IH; [done|]. simpl in Hlen. lia.
Qed.

Lemma dict_zip_inj keys values values' :
  NoDup keys → length values = length keys → length values' = length keys →
  dict_zip keys values = dict_zip keys values' → values = values'.
Proof.
  intros Hnd. revert values values'.
  induction Hnd as [|k ks Hk Hnd IH]; intros [|v vs] [|v' vs'] Hl Hl' Heq;
    try done.
  simpl in Hl, Hl'. rewrite !dict_zip_cons in Heq by done.
  assert (Hfresh : ∀ ws, length ws = length ks → dict_zip ks ws !! k = None).
  { intros ws Hws. apply not_elem_of_dom.
    rewrite dict_zip_dom by done. by rewrite elem_of_list_to_set. }
  assert (v = v') as <-.
  { apply (f_equal (λ d, d !! k)) in Heq.
    rewrite !lookup_insert_eq in Heq. congruence. }
  f_equal. apply IH; [lia..|].
  apply (f_equal (delete k)) in Heq.
  by rewrite !delete_insert_id in Heq by (apply Hfresh; lia).
Qed.

Lemma dict_zip_surj (keys : list (option Z)) (D : gmap (option Z) bool) :
  NoDup keys → dom D = list_to_set keys →
  ∃ values, length values = length keys ∧ dict_zip keys values = D.
Proof.
  intros Hnd. revert D.
  induction Hnd as [|k ks Hk Hnd IH]; intros D Hdom.
  - exists []. split; [done|]. symmetry. by apply dom_empty_iff_L.
  - assert (is_Some (D !! k)) as [v Hv].
    { apply elem_of_dom. rewrite Hdom. apply elem_of_list_to_set. left. }
    destruct (IH (delete k D)) as (vs & Hl & Hd).
    { rewrite dom_delete_L, Hdom. apply set_eq. intros x.
      rewrite elem_of_difference, !elem_of_list_to_set, elem_of_cons,
        elem_of_singleton.
      split; [by intros [[?|?] ?]|]. intros Hx. split; [by right|].
      by intros ->. }
    exists (v :: vs). split; [simpl; lia|].
    rewrite dict_zip_cons, Hd by done. by apply insert_delete_id.
Qed.

Lemma truth_table_rows_Returns circuit keys tuples rows out :
  truth_table_rows circuit keys tuples rows = Returns out →
  ∃ new, out = rows ++ new ∧ Forall2 (row_of circuit keys) tuples new.
Proof.
  revert rows. induction tuples as [|vs rest IH]; intros rows; simpl.
  - intros [= <-]. exists []. split; [by rewrite app_nil_r|constructor].
  - destruct (evaluate circuit (dict_zip keys vs)) as [b|e] eqn:E; [|done].
    intros (new & -> & Hnew)%IH. eexists (_ :: new).
    split; [by rewrite <- app_assoc|]. by constructor.
Qed.

Lemma truth_table_rows_Raises circuit keys tuples rows e :
  truth_table_rows circuit keys tuples rows = Raises e →
  ∃ vs, vs ∈ tuples ∧ evaluate circuit (dict_zip keys vs) = Raises e.
Proof.
  revert rows. induction tuples as [|vs rest IH]; intros rows; simpl; [done|].
  destruct (evaluate circuit (dict_zip keys vs)) as [b|e'] eqn:E.
  - intros (ws & Hws & He)%IH. exists ws. split; [by right|done].
  - intros [= ->]. exists vs. split; [left|done].
Qed.

Lemma row_of_inputs circuit keys tuples (rows : list row) :
  Forall2 (row_of circuit keys) tuples rows →
  row_inputs <$> rows = dict_zip keys <$> tuples.
Proof.
  induction 1 as [|vs r tuples rows [Hr _] _ IH]; [done|].
  by rewrite !fmap_cons, Hr, IH.
Qed.

Lemma generate_truth_table_Returns circuit rows :
  generate_truth_table circuit = Returns rows →
  ∃ keys, sorted_indices (get_input_variables circuit) = Returns keys ∧
          Forall2 (row_of circuit keys) (product_bools (length keys)) rows.
Proof.
  unfold generate_truth_table.
  destruct (sorted_indices (get_input_variables circuit)) as [keys|e];
    [|done].
  intros (new & -> & Hnew)%truth_table_rows_Returns. by exists keys.
Qed.

Lemma sorted_indices_to_set s keys :
  sorted_indices s = Returns keys → list_to_set keys = s.
Proof.
  intros Hs. apply set_eq. intros key.
  by rewrite elem_of_list_to_set, (sorted_indices_elem_of s keys).
Qed.

(** X21. When [generate_truth_table] returns, the table has [2^n] rows for
    the [n] variables [get_input_variables] finds; every row assigns
    exactly those variables and records what [evaluate] returns on its
    assignment. *)
Theorem generate_truth_table_rows (circuit : Gate) (rows : list row) :
  generate_truth_table circuit = Returns rows →
  length rows = (2 ^ size (get_input_variables circuit))%nat ∧
  ∀ r, r ∈ rows →
       dom (row_inputs r) = get_input_variables circuit ∧
       evaluate circuit (row_inputs r) = Returns (row_output r).
Proof.
  intros (keys & Hs & Hrows)%generate_truth_table_Returns. split.
  - rewrite <- (Forall2_length _ _ _ Hrows), product_bools_length.
    by rewrite (sorted_indices_length _ _ Hs).
  - intros r (i & Hi)%list_elem_of_lookup.
    destruct (Forall2_lookup_r _ _ _ _ _ Hrows Hi) as (vs & Hvs & Hin & Hev).
    rewrite Hin. split; [|done].
    rewrite dict_zip_dom.
    + by apply sorted_indices_to_set.
    + by apply (sorted_indices_NoDup _ _ Hs).
    + apply elem_of_product_bools, list_elem_of_lookup. by exists i.
Qed.

Lemma generate_truth_table_rows_witness :
  length negated_input_table
    = (2 ^ size (get_input_variables negated_input_circuit))%nat ∧
  ∀ r, r ∈ negated_input_table →
       dom (row_inputs r) = get_input_variables negated_input_circuit ∧
       evaluate negated_input_circuit (row_inputs r)
         = Returns (row_output r).
Proof.
  apply generate_truth_table_rows. vm_compute. reflexivity.
Defined.

(** X22. When [generate_truth_table] returns, every assignment of
    booleans to the variables of the circuit is the input of one row and
    of one row only. *)
Theorem generate_truth_table_exhaustive (circuit : Gate) (rows : list row) :
  generate_truth_table circuit = Returns rows →
  NoDup (row_inputs <$> rows) ∧
  ∀ D : gmap (option Z) bool,
    dom D = get_input_variables circuit → D ∈ row_inputs <$> rows.
Proof.
  intros (keys & Hs & Hrows)%generate_truth_table_Returns.
  pose proof (sorted_indices_NoDup _ _ Hs) as Hnd.
  rewrite (row_of_inputs _ _ _ _ Hrows). split.
  - apply NoDup_fmap_2_strong; [|apply product_bools_NoDup].
    intros vs ws Hvs%elem_of_product_bools Hws%elem_of_product_bools.
    by apply dict_zip_inj.
  - intros D Hdom. destruct (dict_zip_surj keys D) as (vs & Hl & <-);
      [done|by rewrite (sorted_indices_to_set _ _ Hs)|].
    apply list_elem_of_fmap_2. by apply elem_of_product_bools.
Qed.

Lemma generate_truth_table_exhaustive_witness :
  NoDup (row_inputs <$> negated_input_table) ∧
  ∀ D : gmap (option Z) bool,
    dom D = get_input_variables negated_input_circuit →
    D ∈ row_inputs <$> negated_input_table.
Proof.
  apply generate_truth_table_exhaustive. vm_compute. reflexivity.
Defined.

Lemma evaluate_Raises_kind g input_values e :
  evaluate g input_values = Raises e →
  (∃ key, e = KeyError key) ∨ (∃ x, e = Exn x).
Proof.
  induction g as [g IH] using Gate_nested_ind.
  rewrite Forall_forall in IH. rewrite evaluate_unfold.
  destruct (decide (gate_type g = "INPUT"%string)) as [Ht|Ht].
  { destruct (input_values !! index g); [done|]. intros [= <-].
    left. by eexists. }
  destruct (decide (gate_type g = "NOT"%string)) as [Hn|Hn].
  { destruct (inputs g) as [|operand others] eqn:Hin.
    - intros [= <-]. right. by eexists.
    - destruct (evaluate operand input_values) as [b|e'] eqn:E; [done|].
      intros [= ->]. by apply (IH operand (list_elem_of_here _ _)). }
  destruct (decide (gate_type g = "AND"%string)) as [Ha|Ha].
  { intros (c & Hc & Hr)%all_of_Raises. by apply (IH c). }
  destruct (decide (gate_type g = "OR"%string)) as [Ho|Ho].
  { intros (c & Hc & Hr)%any_of_Raises. by apply (IH c). }
  intros [= <-]. right. by eexists.
Qed.

(** X23. The only TypeError of [generate_truth_table] is the one of
    sorting None among two or more variables, and it never raises a
    KeyError: every dict it evaluates the circuit on holds all the
    variables the circuit reads. *)
Theorem generate_truth_table_errors (circuit : Gate) :
  (generate_truth_table circuit = Raises TypeError ↔
   None ∈ get_input_variables circuit ∧
   (2 ≤ size (get_input_variables circuit))%nat) ∧
  (∀ key, generate_truth_table circuit ≠ Raises (KeyError key)).
Proof.
  unfold generate_truth_table.
  destruct (sorted_indices (get_input_variables circuit)) as [keys|e] eqn:Hs.
  - assert (Hno : ¬ (None ∈ get_input_variables circuit ∧
                     (2 ≤ size (get_input_variables circuit))%nat)).
    { unfold sorted_indices in Hs. by case_decide. }
    split.
    + split; [|done].
      intros (vs & _ & [[k [=]]|[x [=]]]%evaluate_Raises_kind)%truth_table_rows_Raises.
    + intros key (vs & Hvs & [Hb Hl]%evaluate_KeyError_below)%truth_table_rows_Raises.
      apply elem_of_collect_circuit_variables in Hb.
      change (collect_circuit_variables circuit)
        with (get_input_variables circuit) in Hb.
      apply not_elem_of_dom in Hl. destruct Hl.
      rewrite dict_zip_dom.
      * by rewrite (sorted_indices_to_set _ _ Hs).
      * by apply (sorted_indices_NoDup _ _ Hs).
      * by apply elem_of_product_bools.
  - unfold sorted_indices in Hs. case_decide as Hc; [|done].
    injection Hs as <-. split; [done|]. intros key. discriminate.
Qed.

(** The dict that gives every key of the list the value of [f]. *)
Lemma dict_zip_map_lookup (f : option Z → bool) keys key :
  NoDup keys → key ∈ keys → dict_zip keys (map f keys) !! key = Some (f key).
Proof.
  induction 1 as [|k ks Hk Hnd IH]; intros Hin.
  { by apply elem_of_nil in Hin. }
  simpl. rewrite dict_zip_cons by done.
  destruct (decide (k = key)) as [->|Hne]; [by rewrite lookup_insert_eq|].
  rewrite lookup_insert_ne by done.
  apply elem_of_cons in Hin as [->|Hin]; [done|auto].
Qed.

(** X24. The truth table and the search agree: on a circuit whose
    extracted clauses are [cls], and whose truth table is returned,
    [satisfy_cnf cls] is None exactly when no row of the table has output
    True. *)
Theorem truth_table_agrees_with_search (circuit : Gate) (cls : list clause)
    (rows : list row) :
  gate_to_cnf_clauses circuit = Return (raw_of <$> cls) →
  generate_truth_table circuit = Returns rows →
  (satisfy_cnf cls = Return None ↔ ∀ r, r ∈ rows → row_output r = false).
Proof.
  intros Hex Htab.
  pose proof (generate_truth_table_Returns _ _ Htab) as (keys & Hs & Hrows).
  pose proof (sorted_indices_NoDup _ _ Hs) as Hnd.
  assert (Hcover : ∀ (D : gmap (option Z) bool) cl key,
            dom D = get_input_variables circuit →
            cl ∈ raw_of <$> cls → key ∈ cl.1 ++ cl.2 → is_Some (D !! key)).
  { intros D cl key Hdom Hcl Hkey. apply elem_of_dom. rewrite Hdom.
    apply elem_of_collect_circuit_variables.
    by apply (extracted_below circuit _ cl key Hex). }
  rewrite satisfy_cnf_None_unsat. split.
  - intros Hno r (i & Hi)%list_elem_of_lookup.
    destruct (Forall2_lookup_r _ _ _ _ _ Hrows Hi) as (vs & Hvs & Hin & Hev).
    destruct (row_output r) eqn:Hout; [|done]. destruct Hno.
    assert (Hdom : dom (dict_zip keys vs) = get_input_variables circuit).
    { rewrite dict_zip_dom; [by apply sorted_indices_to_set|done|].
      apply elem_of_product_bools, list_elem_of_lookup. by exists i. }
    destruct (evaluate_extracted_aux circuit _ (dict_zip keys vs) Hex)
      as (b & Hb & Hiff); [intros cl key; by apply Hcover|].
    assert (b = true) as -> by congruence.
    exists (λ var, default false (dict_zip keys vs !! Some var)).
    apply Forall_forall. intros cl Hcl.
    destruct (proj1 Hiff eq_refl (raw_of cl))
      as [(k & Hk & Hv)|(k & Hk & Hv)]; [by apply list_elem_of_fmap_2| |];
      simpl in Hk; apply list_elem_of_fmap in Hk as (v & -> & Hin');
      [left|right]; exists v; by rewrite Hv.
  - intros Hall [σ Hσ]. rewrite Forall_forall in Hσ.
    set (f := λ key : option Z,
                match key with Some var => σ var | None => true end).
    assert (Hlen : length (map f keys) = length keys) by apply length_map.
    assert (Hvs : map f keys ∈ product_bools (length keys))
      by by apply elem_of_product_bools.
    apply list_elem_of_lookup in Hvs as [i Hi].
    destruct (Forall2_lookup_l _ _ _ _ _ Hrows Hi) as (r & Hr & Hin & Hev).
    assert (Hdom : dom (dict_zip keys (map f keys))
                   = get_input_variables circuit).
    { rewrite dict_zip_dom; [by apply sorted_indices_to_set|done..]. }
    destruct (evaluate_extracted_aux circuit _ (dict_zip keys (map f keys)) Hex)
      as (b & Hb & Hiff); [intros cl key; by apply Hcover|].
    assert (Hlook : ∀ var, Some var ∈ keys →
              dict_zip keys (map f keys) !! Some var = Some (σ var)).
    { intros var Hin'. by rewrite (dict_zip_map_lookup f). }
    assert (b = true) as ->.
    { apply Hiff. intros raw (cl & -> & Hcl)%list_elem_of_fmap.
      assert (Hkeys : ∀ var, var ∈ cl.1 ++ cl.2 → Some var ∈ keys).
      { intros var Hvar. apply (sorted_indices_elem_of _ _ _ Hs).
        apply elem_of_collect_circuit_variables.
        apply (extracted_below circuit _ (raw_of cl) (Some var) Hex).
        - by apply list_elem_of_fmap_2.
        - simpl. rewrite <- fmap_app. by apply list_elem_of_fmap_2. }
      destruct (Hσ cl Hcl) as [(v & Hv & Hval)|(v & Hv & Hval)];
        [left|right]; exists (Some v);
        (split; [by apply list_elem_of_fmap_2|]);
        rewrite Hlook, Hval; try done; apply Hkeys, elem_of_app; auto. }
    assert (row_output r = false) as Hfalse.
    { apply Hall, list_elem_of_lookup. by exists i. }
    congruence.
Qed.

Lemma truth_table_agrees_with_search_witness :
  satisfy_cnf [([1], []); ([], [1])] = Return None ↔
  ∀ r, r ∈ contradiction_table → row_output r = false.
Proof.
  apply (truth_table_agrees_with_search contradiction_circuit).
  - reflexivity.
  - vm_compute. reflexivity.
Defined.

(** ** Generated circuits *)

Lemma available_inputs_lookup num_inputs (i : nat) :
  Z.of_nat i < num_inputs →
  available_inputs num_inputs !! i = Some (input_gate (Z.of_nat i)).
Proof.
  intros Hi. unfold available_inputs, range.
  change (map input_gate (seqZ 0 (num_inputs - 0)))
    with (input_gate <$> seqZ 0 (num_inputs - 0)).
  rewrite list_lookup_fmap, lookup_seqZ_lt by lia. simpl.
  by rewrite Z.add_0_l.
Qed.

Lemma available_inputs_length num_inputs :
  length (available_inputs num_inputs) = Z.to_nat num_inputs.
Proof.
  unfold available_inputs, range. rewrite length_map, length_seqZ. lia.
Qed.

Lemma generate_clauses_Returns num_inputs draws clauses :
  3 ≤ num_inputs →
  generate_clauses (available_inputs num_inputs) draws clauses =
    Returns (clauses ++ map (drawn_gate num_inputs) draws).
Proof.
  intros Hn. revert clauses.
  induction draws as [|d rest IH]; intros clauses; simpl.
  - by rewrite app_nil_r.
  - unfold sample. rewrite decide_False
      by (rewrite available_inputs_length; lia).
    rewrite IH. by rewrite <- app_assoc.
Qed.

Lemma generate_clauses_Raises num_inputs d rest clauses :
  num_inputs < 3 →
  generate_clauses (available_inputs num_inputs) (d :: rest) clauses =
    Raises (Exn (ValueError "Sample larger than population or is negative")).
Proof.
  intros Hn. simpl. unfold sample.
  by rewrite decide_True by (rewrite available_inputs_length; lia).
Qed.

(** X25. [generate_circuit] raises exactly when it has a clause to build
    and the pool has fewer than 3 inputs, and what it raises is the
    ValueError of [random.sample]; otherwise it returns an AND gate with
    one OR gate per clause. *)
Theorem generate_circuit_error (num_inputs : Z) (draws : list draw) :
  (num_inputs < 3 ∧ draws ≠ [] →
   generate_circuit num_inputs draws =
     Raises (Exn (ValueError "Sample larger than population or is negative")))
  ∧
  (3 ≤ num_inputs ∨ draws = [] →
   ∃ clauses, generate_circuit num_inputs draws =
                Returns (mkGate "AND" clauses None None) ∧
              length clauses = length draws ∧
              ∀ cl, cl ∈ clauses → gate_type cl = "OR"%string).
Proof.
  unfold generate_circuit. split.
  - intros [Hn Hd]. destruct draws as [|d rest]; [done|].
    by rewrite generate_clauses_Raises.
  - intros [Hn| ->].
    + rewrite generate_clauses_Returns by done.
      eexists. split; [done|]. split; [apply length_map|].
      intros cl Hcl. apply list_elem_of_In, in_map_iff in Hcl as (d & <- & _).
      done.
    + exists []. split; [done|]. split; [done|].
      intros cl Hcl. by apply elem_of_nil in Hcl.
Qed.

Lemma generate_circuit_error_witness :
  generate_circuit 2 [mkDraw [0; 1; 1]%nat [true; false; true]] =
    Raises (Exn (ValueError "Sample larger than population or is negative")).
Proof.
  apply (proj1 (generate_circuit_error 2 _)). split; [lia|discriminate].
Defined.

Lemma valid_draw_cases num_inputs d :
  valid_draw num_inputs d →
  ∃ a b c x y z,
    d = mkDraw [a; b; c] [x; y; z] ∧ a ≠ b ∧ a ≠ c ∧ b ≠ c ∧
    Z.of_nat a < num_inputs ∧ Z.of_nat b < num_inputs ∧
    Z.of_nat c < num_inputs.
Proof.
  destruct d as [ps cs]. intros (Hp & Hnd & Hlt & Hc). simpl in *.
  destruct ps as [|a [|b [|c [|? ?]]]]; try done.
  destruct cs as [|x [|y [|z [|? ?]]]]; try done.
  exists a, b, c, x, y, z. split; [done|].
  apply NoDup_cons in Hnd as [Ha Hnd]. apply NoDup_cons in Hnd as [Hb _].
  rewrite !elem_of_cons, elem_of_nil in Ha.
  rewrite !elem_of_cons, elem_of_nil in Hb.
  repeat split; try (intros ->; tauto);
    apply Hlt; rewrite !elem_of_cons; tauto.
Qed.

Lemma drawn_gate_literals num_inputs d :
  valid_draw num_inputs d →
  ∃ a b c x y z,
    d = mkDraw [a; b; c] [x; y; z] ∧
    inputs (drawn_gate num_inputs d) =
      negated_literals [input_gate (Z.of_nat a); input_gate (Z.of_nat b);
                        input_gate (Z.of_nat c)] d.
Proof.
  intros (a & b & c & x & y & z & -> & _ & _ & _ & Ha & Hb & Hc)%valid_draw_cases.
  exists a, b, c, x, y, z. split; [done|].
  unfold drawn_gate. simpl.
  by rewrite !available_inputs_lookup by done.
Qed.

Lemma drawn_gate_ok num_inputs d :
  valid_draw num_inputs d →
  Forall literal_ok (inputs (drawn_gate num_inputs d)) ∧
  clause_of (drawn_gate num_inputs d) = raw_of (drawn_clause d).
Proof.
  intros Hv.
  destruct (drawn_gate_literals num_inputs d Hv)
    as (a & b & c & x & y & z & -> & Hin).
  unfold clause_of. rewrite Hin. clear Hin Hv.
  assert (Hi : ∀ i, literal_ok (input_gate i)) by (intros i; by left).
  assert (Hn : ∀ i, literal_ok (mkGate "NOT" [input_gate i] None None)).
  { intros i. right. split; [done|]. by exists (input_gate i), []. }
  destruct x, y, z;
    (split; [repeat (apply List.Forall_cons; [first [apply Hi|apply Hn]|]);
             apply List.Forall_nil
            |reflexivity]).
Qed.

Lemma generated_circuit num_inputs draws c :
  Forall (valid_draw num_inputs) draws →
  generate_circuit num_inputs draws = Returns c →
  c = mkGate "AND" (map (drawn_gate num_inputs) draws) None None.
Proof.
  intros Hv. unfold generate_circuit. destruct draws as [|d rest].
  - simpl. by intros [= <-].
  - apply Forall_cons in Hv as [Hd _].
    apply valid_draw_cases in Hd
      as (a & b & c' & x & y & z & _ & ? & ? & ? & ? & ? & ?).
    rewrite generate_clauses_Returns by lia. by intros [= <-].
Qed.

Lemma drawn_clause_props num_inputs d :
  valid_draw num_inputs d →
  length ((drawn_clause d).1 ++ (drawn_clause d).2) = 3%nat ∧
  NoDup ((drawn_clause d).1 ++ (drawn_clause d).2) ∧
  ∀ var, var ∈ (drawn_clause d).1 ++ (drawn_clause d).2 →
         1 ≤ var ≤ num_inputs.
Proof.
  intros (a & b & c & x & y & z & -> & Hab & Hac & Hbc & Ha & Hb & Hc)%valid_draw_cases.
  destruct x, y, z; (split; [reflexivity|]); cbn; (split;
    [repeat (apply NoDup_cons; split;
             [rewrite ?elem_of_cons, elem_of_nil; lia|]); apply NoDup_nil_2
    |intros var; rewrite ?elem_of_cons, elem_of_nil; lia]).
Qed.

Lemma generated_extraction num_inputs draws :
  Forall (valid_draw num_inputs) draws →
  gate_to_cnf_clauses
    (mkGate "AND" (map (drawn_gate num_inputs) draws) None None) =
  Return (raw_of <$> (drawn_clause <$> draws)).
Proof.
  intros Hv. rewrite Forall_forall in Hv.
  rewrite gate_to_cnf_clauses_well_formed.
  - f_equal. simpl. rewrite <- list_fmap_compose.
    change (map clause_of (map (drawn_gate num_inputs) draws))
      with (clause_of <$> (drawn_gate num_inputs <$> draws)).
    rewrite <- list_fmap_compose. apply list_fmap_ext.
    intros i d Hd%list_elem_of_lookup_2. simpl.
    by apply drawn_gate_ok, Hv.
  - intros [Ht|(cl & Hcl & Hbad)]; [done|]. simpl in Hcl.
    apply list_elem_of_In, in_map_iff in Hcl as (d & <- & Hd).
    apply list_elem_of_In, Hv, (drawn_gate_ok num_inputs) in Hd as [Hok _].
    destruct Hbad as [?|(lit & Hl & Hlit)]; [done|].
    rewrite Forall_forall in Hok. auto.
Qed.

(** X26. Whatever the random choices, a circuit that [generate_circuit]
    returns is accepted by [gate_to_cnf_clauses]: the extraction returns
    one clause per generated clause, each with three literals over three
    different variables between 1 and [num_inputs]. *)
Theorem generate_circuit_shape (num_inputs : Z) (draws : list draw)
    (c : Gate) :
  Forall (valid_draw num_inputs) draws →
  generate_circuit num_inputs draws = Returns c →
  ∃ cls : list clause,
    gate_to_cnf_clauses c = Return (raw_of <$> cls) ∧
    length cls = length draws ∧
    ∀ cl, cl ∈ cls →
      length (cl.1 ++ cl.2) = 3%nat ∧ NoDup (cl.1 ++ cl.2) ∧
      ∀ var, var ∈ cl.1 ++ cl.2 → 1 ≤ var ≤ num_inputs.
Proof.
  intros Hv ->%generated_circuit; [|done].
  exists (drawn_clause <$> draws).
  split; [by apply generated_extraction|].
  split; [apply length_fmap|].
  intros cl (d & -> & Hd)%list_elem_of_fmap.
  rewrite Forall_forall in Hv. by apply drawn_clause_props, Hv.
Qed.

Lemma generate_circuit_shape_witness :
  ∃ cls : list clause,
    gate_to_cnf_clauses
      (mkGate "AND"
         [mkGate "OR" [mkGate "NOT" [input_gate 2] None None;
                       input_gate 0; input_gate 1] None None] None None)
      = Return (raw_of <$> cls) ∧
    length cls = length [mkDraw [2; 0; 1]%nat [true; false; false]] ∧
    ∀ cl, cl ∈ cls →
      length (cl.1 ++ cl.2) = 3%nat ∧ NoDup (cl.1 ++ cl.2) ∧
      ∀ var, var ∈ cl.1 ++ cl.2 → 1 ≤ var ≤ 3.
Proof.
  apply (generate_circuit_shape 3
           [mkDraw [2; 0; 1]%nat [true; false; false]]).
  - constructor; [|constructor]. split; [done|]. split.
    + repeat (apply NoDup_cons; split;
              [rewrite ?elem_of_cons, elem_of_nil; lia|]). apply NoDup_nil_2.
    + split; [|done]. intros i. simpl.
      rewrite !elem_of_cons, elem_of_nil. lia.
  - reflexivity.
Defined.

Lemma gather_vars_drawn_gate num_inputs d variables key :
  valid_draw num_inputs d →
  key ∈ gather_vars (drawn_gate num_inputs d) variables ↔
  key ∈ variables ∨ ∃ i, i ∈ positions d ∧ key = Some (Z.of_nat i + 1).
Proof.
  intros Hv. rewrite gather_vars_unfold.
  destruct (drawn_gate_literals num_inputs d Hv)
    as (a & b & c & x & y & z & -> & ->).
  assert (Hpos : (∃ i, i ∈ [a; b; c] ∧ key = Some (Z.of_nat i + 1)) ↔
                 key = Some (Z.of_nat a + 1) ∨ key = Some (Z.of_nat b + 1) ∨
                 key = Some (Z.of_nat c + 1)).
  { split.
    - intros (i & Hi & ->). rewrite !elem_of_cons, elem_of_nil in Hi.
      destruct Hi as [->|[->|[->|[]]]]; auto.
    - intros [Hk|[Hk|Hk]]; subst key; eexists; (split; [|done]);
        rewrite !elem_of_cons; auto. }
  simpl positions. rewrite Hpos.
  destruct x, y, z; cbn;
    rewrite ?(decide_True (P := "INPUT"%string = "INPUT"%string)) by done;
    rewrite ?(decide_False (P := "NOT"%string = "INPUT"%string)) by done;
    rewrite ?(decide_False (P := "OR"%string = "INPUT"%string)) by done;
    rewrite !elem_of_union, !elem_of_singleton; tauto.
Qed.

Lemma generated_variables num_inputs draws key :
  Forall (valid_draw num_inputs) draws →
  key ∈ collect_circuit_variables
          (mkGate "AND" (map (drawn_gate num_inputs) draws) None None) ↔
  ∃ d i, d ∈ draws ∧ i ∈ positions d ∧ key = Some (Z.of_nat i + 1).
Proof.
  intros Hv. unfold collect_circuit_variables.
  rewrite gather_vars_unfold. cbn [gate_type inputs].
  rewrite (decide_False (P := "AND"%string = "INPUT"%string)) by done.
  assert (Hloop : ∀ variables,
            key ∈ foldl (λ vars inp, gather_vars inp vars) variables
                        (map (drawn_gate num_inputs) draws) ↔
            key ∈ variables ∨
            ∃ d i, d ∈ draws ∧ i ∈ positions d ∧ key = Some (Z.of_nat i + 1)).
  { induction Hv as [|d rest Hd Hrest IH]; intros variables;
      cbn [map foldl].
    - split; [auto|]. intros [?|(d & i & Hd & _)]; [done|].
      by apply elem_of_nil in Hd.
    - rewrite IH, (gather_vars_drawn_gate num_inputs d) by done. split.
      + intros [[?|(i & Hi & ->)]|(d' & i & Hd' & Hi & ->)]; [by left| |].
        * right. exists d, i. split; [left|done].
        * right. exists d', i. split; [by right|done].
      + intros [?|(d' & i & [->|Hd']%elem_of_cons & Hi & ->)];
          [by left; left| |].
        * left; right. by exists i.
        * right. by exists d', i. }
  rewrite Hloop. split; [|by right]. intros [H|H]; [|done].
  by apply elem_of_empty in H.
Qed.

(** X27. Whatever the random choices, the verification of
    [generate_and_solve] succeeds: for a circuit that [generate_circuit]
    returns, with the clauses extracted from it, a mapping returned by
    [satisfy_cnf] and completed with True over the variables collected
    from the circuit makes the circuit evaluate to True. *)
Theorem generated_solution_verifies (num_inputs : Z) (draws : list draw)
    (c : Gate) (cls : list clause) (m : gmap Z bool)
    (all_variables : list Z) :
  Forall (valid_draw num_inputs) draws →
  generate_circuit num_inputs draws = Returns c →
  gate_to_cnf_clauses c = Return (raw_of <$> cls) →
  satisfy_cnf cls = Return (Some m) →
  (∀ var, var ∈ all_variables ↔ Some var ∈ collect_circuit_variables c) →
  evaluate c (kmap Some (add_missing all_variables m)) = Returns true.
Proof.
  intros Hv Hc Hex Hsat Hall.
  pose proof (generated_circuit _ _ _ Hv Hc) as ->.
  apply (solution_evaluates _ cls m); try done.
  - intros var b Hm. rewrite lookup_kmap by apply _.
    by rewrite add_missing_lookup, Hm.
  - intros key Hkey.
    pose proof (proj1 (generated_variables num_inputs draws key Hv) Hkey)
      as (d & i & _ & _ & ->).
    rewrite lookup_kmap by apply _. rewrite add_missing_lookup.
    destruct (m !! (Z.of_nat i + 1)); [done|].
    rewrite decide_True; [done|]. by apply Hall.
Qed.

Lemma valid_draw_example :
  valid_draw 3 (mkDraw [2; 0; 1]%nat [true; false; false]).
Proof.
  split; [done|]. split.
  - repeat (apply NoDup_cons; split;
            [rewrite ?elem_of_cons, elem_of_nil; lia|]). apply NoDup_nil_2.
  - split; [|done]. intros i. simpl.
    rewrite !elem_of_cons, elem_of_nil. lia.
Qed.

Lemma generated_solution_verifies_witness :
  evaluate drawn_circuit (kmap Some (add_missing [1; 2; 3] {[1 := true]}))
    = Returns true.
Proof.
  refine (generated_solution_verifies 3
            [mkDraw [2; 0; 1]%nat [true; false; false]] drawn_circuit
            [([1; 2], [3])] {[1 := true]} [1; 2; 3] _ _ _ _ _).
  - constructor; [apply valid_draw_example|constructor].
  - reflexivity.
  - reflexivity.
  - vm_compute. reflexivity.
  - intros var.
    assert (E : collect_circuit_variables drawn_circuit
                = {[Some 1; Some 2; Some 3]}) by (vm_compute; reflexivity).
    rewrite E, !elem_of_cons, elem_of_nil, !elem_of_union,
      !elem_of_singleton.
    split.
    + intros [->|[->|[->|[]]]]; auto.
    + intros [[Hk|Hk]|Hk]; injection Hk as ->; auto.
Defined.
